(** * Knowledge Path Visualizer: unlock rule, progress updates, import/export

    A shallow embedding of the domain logic of [react_app.js] (the React
    implementation) and [script.js] (the direct-DOM implementation):
    [computeUnlocks], [updateProgress], [exportProgress], [importProgress],
    [saveProgress] and the progress drop-down handler of [openModal].

    Conventions of the embedding.
    - A JavaScript number is an integer ([Z]): topic progress is an integer
      percentage and the snapshot schema stores integers.  Numbers with a
      fractional part, [NaN] and the infinities have no term here; where a
      statement would not hold for them, its hypotheses say which values it
      is about.  [String(n)] and [parseInt] are exact on the safe integers
      (absolute value below 2^53), and are only relied on there.
    - [JSON.parse] and [JSON.stringify] are browser built-ins.  The import
      handler is modelled from the result of [JSON.parse] (a JavaScript value
      or a thrown [SyntaxError]); the export is modelled up to the value that
      is handed to [JSON.stringify].
    - [localStorage] is a string-to-string map whose [setItem] throws when
      the storage is not writable (quota exceeded, storage disabled).
    - [setNodes updater] of React is the state transition that replaces the
      node list by [updater prev].  When the updater throws, the node list is
      not replaced and React raises the error when it renders: the
      component tree is unmounted (there is no error boundary).  A call
      made inside a React event handler returns normally before that
      happens; a call made outside one ([reader.onload]) renders at once,
      so the error also reaches the caller.  [ReactUi] models the tree.
    - The drawing of the graph with D3 (the effect of the component,
      [renderGraph] of script.js) is not modelled. *)

From Stdlib Require Import ZArith Ascii.
From stdpp Require Import base option list strings gmap pretty.

#[local] Set Warnings "-register-all".

(** ** JavaScript values produced by [JSON.parse]

    [JNum z] is a number whose value is the integer [z]; a number with a
    fractional part has no term. *)

Inductive json : Type :=
  | JNull
  | JBool (b : bool)
  | JNum (z : Z)
  | JStr (s : string)
  | JArr (items : list json)
  | JObj (fields : list (string * json)).

(** Own property of a parsed object.  [JSON.parse] keeps the last of several
    bindings of one key, so the association list is read from the right. *)
Fixpoint assoc_last (key : string) (fields : list (string * json)) : option json :=
  match fields with
  | [] => None
  | (k, v) :: rest =>
      match assoc_last key rest with
      | Some w => Some w
      | None => if bool_decide (k = key) then Some v else None
      end
  end.

Inductive exn : Type :=
  | SyntaxError     (* JSON.parse on malformed text *)
  | TypeError       (* property read on null *)
  | StorageError.   (* localStorage.setItem failed *)

(** [v.key]: [None] is [undefined]; reading a property of [null] throws. *)
Definition get_prop (v : json) (key : string) : exn + option json :=
  match v with
  | JNull => inl TypeError
  | JObj fields => inr (assoc_last key fields)
  | JBool _ | JNum _ | JStr _ | JArr _ => inr None
  end.

(** [x === s] for a string [s]. *)
Definition strict_eq_string (x : option json) (s : string) : bool :=
  match x with
  | Some (JStr t) => bool_decide (t = s)
  | _ => false
  end.

(** [typeof x === 'number'], returning the number. *)
Definition as_number (x : option json) : option Z :=
  match x with
  | Some (JNum z) => Some z
  | _ => None
  end.

Definition isArray (v : json) : option (list json) :=
  match v with
  | JArr items => Some items
  | _ => None
  end.

(** ** Topics *)

Record node : Type := Node {
  id : string;
  title : string;
  description : string;
  dependencies : option (list string);   (* [None]: the property is absent *)
  progress : Z;
  unlocked : option bool                 (* [None]: not computed yet *)
}.

Definition set_progress (n : node) (p : Z) : node :=
  Node (id n) (title n) (description n) (dependencies n) p (unlocked n).

Definition set_unlocked (n : node) (u : bool) : node :=
  Node (id n) (title n) (description n) (dependencies n) (progress n) (Some u).

(** ** localStorage

    [writable] says whether the storage accepts writes: a storage that is
    disabled or full rejects every [setItem].  A quota that is reached in
    the middle of a handler is not modelled. *)

Record storage : Type := Storage {
  items : gmap string string;
  writable : bool
}.

(** Computations that read and write [localStorage] and may throw.  The
    storage reached at the point of a throw is kept. *)
Definition M (A : Type) : Type := storage → storage * (exn + A).

Definition ret {A} (x : A) : M A := λ s, (s, inr x).
Definition bind {A B} (k : A → M B) (c : M A) : M B :=
  λ s, match c s with
       | (s', inr x) => k x s'
       | (s', inl e) => (s', inl e)
       end.
Definition lift {A} (r : exn + A) : M A := λ s, (s, r).

#[global] Instance M_ret : MRet M := @ret.
#[global] Instance M_bind : MBind M := @bind.

Definition setItem (key value : string) : M unit :=
  λ s, if writable s
       then (Storage (<[key := value]> (items s)) (writable s), inr tt)
       else (s, inl StorageError).

(** [Array.prototype.map] with an effectful callback, left to right. *)
Fixpoint mapM {A B} (f : A → M B) (l : list A) : M (list B) :=
  match l with
  | [] => mret []
  | x :: rest => y ← f x; ys ← mapM f rest; mret (y :: ys)
  end.

(** [Array.prototype.find] with a callback that may throw. *)
Fixpoint array_find {A} (p : A → exn + bool) (l : list A) : exn + option A :=
  match l with
  | [] => inr None
  | x :: rest =>
      match p x with
      | inl e => inl e
      | inr true => inr (Some x)
      | inr false => array_find p rest
      end
  end.

(** [String(n)] for an integer: all its decimal digits, which is what
    JavaScript prints below 10^21 in absolute value. *)
Definition String_of (z : Z) : string := pretty z.

(** [Math.max(0, Math.min(100, p))]. *)
Definition clamp (p : Z) : Z := Z.max 0 (Z.min 100 p).

(** The React state together with the browser storage. *)
Record app : Type := App {
  nodes : list node;
  store : storage
}.

(** [setNodes(updater)]: the updater applied to the current list.  The
    result is the state once the call has returned, together with the error
    the updater threw, if any.  React keeps such an error for the render
    (see [ReactUi.select_onChange] and [ReactUi.file_loaded]); it runs the
    updater again there, which repeats the same writes. *)
Definition setNodes (updater : list node → M (list node)) (a : app) : app * (exn + unit) :=
  match updater (nodes a) (store a) with
  | (s', inr ns') => (App ns' s', inr tt)
  | (s', inl e) => (App (nodes a) s', inl e)
  end.

(** ** react_app.js *)

Module ReactApp.

Definition initialNodes : list node :=
  [ Node "basics" "Programming Fundamentals"
      "Learn variables, control flow, functions and the building blocks of code."
      (Some []) 0 None;
    Node "datastructures" "Data Structures"
      "Study arrays, lists, stacks, queues, trees and more.  Knowing how data is organised is essential."
      (Some ["basics"]) 0 None;
    Node "algorithms" "Algorithms"
      "Explore sorting, searching and other fundamental algorithms.  Learn to reason about complexity."
      (Some ["basics"]) 0 None;
    Node "graphs" "Graph Theory"
      "Understand nodes and edges, traversal algorithms and shortest paths."
      (Some ["datastructures"; "algorithms"]) 0 None;
    Node "machinelearning" "Machine Learning"
      "Dive into supervised and unsupervised learning, regression, classification and neural networks."
      (Some ["algorithms"]) 0 None ].

(** [nodes.find((n) => n.id === depId)] *)
Definition find_node (ns : list node) (depId : string) : option node :=
  snd <$> list_find (λ n, id n = depId) ns.

(** The callback of [every]: [depNode && depNode.progress >= 75]. *)
Definition dep_ok (ns : list node) (depId : string) : bool :=
  match find_node ns depId with
  | Some depNode => bool_decide (75 ≤ progress depNode)%Z
  | None => false
  end.

Definition unlock_one (ns : list node) (n : node) : node :=
  match dependencies n with
  | None | Some [] => set_unlocked n true
  | Some deps => set_unlocked n (forallb (dep_ok ns) deps)
  end.

Definition computeUnlocks (ns : list node) : list node :=
  unlock_one ns <$> ns.

(** The callback of [nodes.map] in [exportProgress]. *)
Definition export_entry (n : node) : json :=
  JObj [("id", JStr (id n)); ("progress", JNum (progress n))].

(** [exportProgress], up to the value handed to [JSON.stringify]. *)
Definition exportProgress (ns : list node) : json := JArr (export_entry <$> ns).

Definition storage_key (i : string) : string := "kpv-react-progress-" +:+ i.

(** [arr.find(function (entry) { return entry.id === n.id; })] *)
Definition find_entry (arr : list json) (n : node) : exn + option json :=
  array_find (λ entry,
    match get_prop entry "id" with
    | inl e => inl e
    | inr x => inr (strict_eq_string x (id n))
    end) arr.

(** The callback of [prev.map] in [importProgress]. *)
Definition import_one (arr : list json) (n : node) : M node :=
  m ← lift (find_entry arr n);
  match m with
  | Some entry =>
      (* a found entry is an object: the property read cannot throw *)
      mp ← lift (get_prop entry "progress");
      match as_number mp with
      | Some p =>
          let newProg := clamp p in
          setItem (storage_key (id n)) (String_of newProg);;
          mret (set_progress n newProg)
      | None => mret n
      end
  | None => mret n
  end.

(** The updater passed to [setNodes] in [importProgress]. *)
Definition import_updater (arr : list json) (prev : list node) : M (list node) :=
  updated ← mapM (import_one arr) prev;
  mret (computeUnlocks updated).

(** What [reader.onload] did. *)
Inductive import_outcome : Type :=
  | Applied            (* [setNodes] ran to completion *)
  | NotAnArray         (* silent [return] *)
  | Caught (e : exn).  (* the [catch] branch logged an error *)

(** [reader.onload]; [parsed] is the result of [JSON.parse(reader.result)]. *)
Definition reader_onload (parsed : exn + json) (a : app) : app * import_outcome :=
  match parsed with
  | inl e => (a, Caught e)
  | inr v =>
      match isArray v with
      | None => (a, NotAnArray)
      | Some arr =>
          match setNodes (import_updater arr) a with
          | (a', inr _) => (a', Applied)
          | (a', inl e) => (a', Caught e)
          end
      end
  end.

(** The callback of [prev.map] in [updateProgress]. *)
Definition update_one (i : string) (newProgress : Z) (n : node) : node :=
  if bool_decide (id n = i) then set_progress n newProgress else n.

(** The updater passed to [setNodes] in [updateProgress]. *)
Definition update_updater (i : string) (newProgress : Z) (prev : list node) : M (list node) :=
  let updated := update_one i newProgress <$> prev in
  setItem (storage_key i) (String_of newProgress);;
  mret (computeUnlocks updated).

Definition updateProgress (i : string) (newProgress : Z) (a : app) : app * (exn + unit) :=
  setNodes (update_updater i newProgress) a.

End ReactApp.

(** ** script.js *)

Module Script.

(** [nodeMap.set(n.id, n)] for every node in order.  A node object is
    referred to by its position in [knowledgeGraph.nodes]. *)
Fixpoint nodeMap_from (i : nat) (ns : list node) (m : gmap string nat) : gmap string nat :=
  match ns with
  | [] => m
  | n :: rest => nodeMap_from (S i) rest (<[id n := i]> m)
  end.

Definition build_nodeMap (ns : list node) : gmap string nat := nodeMap_from 0 ns ∅.

(** The page: the mutable node objects, the lookup map and the storage. *)
Record page : Type := Page {
  graph : list node;
  nodeMap : gmap string nat;
  local : storage
}.

Definition storage_key (i : string) : string := "kpv-progress-" +:+ i.

Definition saveProgress (n : node) : M unit :=
  setItem (storage_key (id n)) (String_of (progress n)).

(** [nodeMap.get(depId)], read through the current objects. *)
Definition get_node (g : list node) (nm : gmap string nat) (depId : string) : option node :=
  nm !! depId ≫= (g !!.).

Definition dep_ok (g : list node) (nm : gmap string nat) (depId : string) : bool :=
  match get_node g nm depId with
  | Some depNode => bool_decide (75 ≤ progress depNode)%Z
  | None => false
  end.

(** One iteration of the [forEach] of [computeUnlocks]: assigns
    [node.unlocked] of the object at position [i]. *)
Definition unlock_at (nm : gmap string nat) (g : list node) (i : nat) : list node :=
  match g !! i with
  | Some n =>
      match dependencies n with
      | None | Some [] => <[i := set_unlocked n true]> g
      | Some deps => <[i := set_unlocked n (forallb (dep_ok g nm) deps)]> g
      end
  | None => g
  end.

Definition computeUnlocks (nm : gmap string nat) (g : list node) : list node :=
  foldl (unlock_at nm) g (seq 0 (length g)).

(** [select.onchange] installed by [openModal(node)], [node] being the
    object at position [ref]; [newVal] is [parseInt(select.value, 10)]. *)
Definition select_onchange (ref : nat) (newVal : Z) (p : page) : page * (exn + unit) :=
  match graph p !! ref with
  | None => (p, inr tt)   (* not reached: [node] is one of the objects *)
  | Some n =>
      let n1 := set_progress n newVal in
      let g1 := <[ref := n1]> (graph p) in
      match saveProgress n1 (local p) with
      | (s', inl e) => (Page g1 (nodeMap p) s', inl e)
      | (s', inr _) => (Page (computeUnlocks (nodeMap p) g1) (nodeMap p) s', inr tt)
      end
  end.

End Script.

(** ** Built-ins used by the loading and rendering code *)

(** [parseInt(s, 10)] on a string of ASCII characters: leading white space
    is skipped, an optional sign is read, and the longest prefix of decimal
    digits is converted.  The value is exact; JavaScript rounds it to a
    double, which changes nothing for a safe integer.  [None] is [NaN],
    which a topic's progress cannot hold in this embedding. *)
Definition is_space (c : Ascii.ascii) : bool :=
  match c with
  | " " | "009" | "010" | "011" | "012" | "013" => true
  | _ => false
  end%char.

(** The value of a decimal digit, from its character code. *)
Definition digit_value (c : Ascii.ascii) : option Z :=
  let code := Z.of_N (N_of_ascii c) in
  if bool_decide (48 ≤ code ≤ 57)%Z then Some (code - 48)%Z else None.

Fixpoint trim_left (s : string) : string :=
  match s with
  | String c rest => if is_space c then trim_left rest else s
  | EmptyString => s
  end.

(** The value of the longest digit prefix; [acc] is [None] until a digit
    has been read. *)
Fixpoint parse_digits (acc : option Z) (s : string) : option Z :=
  match s with
  | String c rest =>
      match digit_value c with
      | Some d => parse_digits (Some (10 * default 0 acc + d)%Z) rest
      | None => acc
      end
  | EmptyString => acc
  end.

Definition parseInt10 (s : string) : option Z :=
  match trim_left s with
  | String "-" rest => Z.opp <$> parse_digits None rest
  | String "+" rest => parse_digits None rest
  | t => parse_digits None t
  end.

(** [Math.round(num / den)] for integers with [den > 0]: the nearest
    integer, a tie going up. *)
Definition round_div (num den : Z) : Z := ((2 * num + den) / (2 * den))%Z.

(** ** progressColor (the same function in react_app.js and script.js)

    The interpolation is computed in exact arithmetic.  For an integer
    progress inside [0, 100] the two stops are 25 apart, so the exact value
    is a multiple of 1/25 away from every integer, never at a rounding
    boundary, and the double-precision computation of the source rounds to
    the same integer.  Outside [0, 100] a value can sit on a rounding
    boundary; what is stated there are bounds that hold for either
    rounding. *)

Record stop : Type := Stop {
  p : Z;
  color : list Z
}.

Definition stops : list stop :=
  [ Stop 0 [10; 26; 47]%Z;
    Stop 25 [32; 55; 93]%Z;
    Stop 50 [62; 88; 145]%Z;
    Stop 75 [97; 122; 180]%Z;
    Stop 100 [255; 215; 0]%Z ].

(** The [for] loop: the first pair of neighbouring stops that encloses
    [progress]. *)
Fixpoint find_segment (progress : Z) (l : list stop) : option (stop * stop) :=
  match l with
  | lower :: ((upper :: _) as rest) =>
      if bool_decide (p lower ≤ progress)%Z && bool_decide (progress ≤ p upper)%Z
      then Some (lower, upper)
      else find_segment progress rest
  | _ => None
  end.

(** [lower] and [upper] after the loop; they start as the first and the
    last stop. *)
Definition segment (progress : Z) : stop * stop :=
  default (Stop 0 [10; 26; 47]%Z, Stop 100 [255; 215; 0]%Z) (find_segment progress stops).

(** [Math.round(c + (u - c) * ratio)] *)
Definition interpolate (progress : Z) (lower upper : stop) (c u : Z) : Z :=
  if bool_decide (p lower = p upper) then c
  else round_div (c * (p upper - p lower) + (u - c) * (progress - p lower))
                 (p upper - p lower).

Definition interp (progress : Z) : list Z :=
  let '(lower, upper) := segment progress in
  zip_with (interpolate progress lower upper) (color lower) (color upper).

Definition progressColor (progress : Z) : string :=
  let i := interp progress in
  "rgb(" +:+ String_of (i !!! 0%nat) +:+ ", " +:+ String_of (i !!! 1%nat)
         +:+ ", " +:+ String_of (i !!! 2%nat) +:+ ")".

(** ** react_app.js: edges, initial state, click and filter handlers *)

Record edge : Type := Edge {
  source : string;
  target : string
}.

Module ReactUi.
Import ReactApp.

(** [initialEdges]: one edge per entry of a [dependencies] array; a node
    whose [dependencies] is not an array contributes none. *)
Definition edges_of (ns : list node) : list edge :=
  n ← ns;
  match dependencies n with
  | Some deps => (λ dep, Edge dep (id n)) <$> deps
  | None => []
  end.

Definition initialEdges : list edge := edges_of initialNodes.

(** The callback of [initialNodes.map] in the [useState] initialiser:
    [localStorage.getItem] and [parseInt(stored, 10)]. *)
Definition load_one (s : storage) (n : node) : option node :=
  match items s !! storage_key (id n) with
  | Some stored => set_progress n <$> parseInt10 stored
  | None => Some n
  end.

(** The [useState] initialiser of [nodes], for the static list [init].
    [None] when some stored value is not read as an integer: the component
    then mounts with a progress of [NaN], a value this embedding does not
    have.  A storage that holds what the handlers wrote never gives [None]
    (see [load_reads_stored_progress]). *)
Definition load (init : list node) (s : storage) : option (list node) :=
  computeUnlocks <$> list.mapM (load_one s) init.

(** The component: its state hooks, and [crashed], the error that made
    React unmount the tree ([None] while the tree is mounted). *)
Record ui : Type := Ui {
  model : app;
  selectedNode : option node;
  showActive : bool;
  showCompleted : bool;
  showDependencies : bool;
  crashed : option exn
}.

(** The five [option]s of the modal's [select]. *)
Inductive choice : Type := P0 | P25 | P50 | P75 | P100.

(** [parseInt(ev.target.value, 10)] for the chosen option. *)
Definition choice_value (c : choice) : Z :=
  match c with
  | P0 => 0 | P25 => 25 | P50 => 50 | P75 => 75 | P100 => 100
  end%Z.

Definition with_model (u : ui) (a : app) : ui :=
  Ui a (selectedNode u) (showActive u) (showCompleted u) (showDependencies u) (crashed u).

(** An error raised while React renders: the tree is unmounted. *)
Definition unmount (e : exn) (u : ui) : ui :=
  Ui (model u) (selectedNode u) (showActive u) (showCompleted u) (showDependencies u)
     (Some e).

(** The first statement of [Modal]: [node.dependencies.map(...)] throws when
    the topic has no [dependencies] array. *)
Definition Modal (n : node) : exn + unit :=
  match dependencies n with
  | Some _ => inr tt
  | None => inl TypeError
  end.

(** The click handler of a graph node with id [d]: [setSelectedNode(orig)]
    only for an unlocked topic, and the render of [Modal] that follows. *)
Definition node_click (d : string) (u : ui) : ui :=
  match find_node (nodes (model u)) d with
  | Some orig =>
      match unlocked orig with
      | Some true =>
          let u' := Ui (model u) (Some orig) (showActive u) (showCompleted u)
                       (showDependencies u) (crashed u) in
          match Modal orig with
          | inr _ => u'
          | inl e => unmount e u'
          end
      | _ => u
      end
  | None => u
  end.

(** [onClose] *)
Definition close_modal (u : ui) : ui :=
  Ui (model u) None (showActive u) (showCompleted u) (showDependencies u) (crashed u).

(** The [onChange] handler of the modal's [select], and the render that
    follows; the modal exists only while a node is selected.
    [updateProgress] returns to the handler also when its updater throws,
    so [onClose()] runs in both cases; the error is raised by the render. *)
Definition select_onChange (c : choice) (u : ui) : ui :=
  match selectedNode u with
  | None => u
  | Some node =>
      match updateProgress (id node) (choice_value c) (model u) with
      | (a', inr _) => close_modal (with_model u a')
      | (a', inl e) => unmount e (close_modal (with_model u a'))
      end
  end.

(** [reader.onload] and the render it triggers.  The call of [setNodes] is
    not inside a React event handler, so React renders before the call
    returns: an error thrown by the updater unmounts the tree and reaches
    the [catch] branch.  A [SyntaxError] of [JSON.parse] reaches the
    [catch] branch before [setNodes] is called, and nothing is rendered. *)
Definition file_loaded (parsed : exn + json) (u : ui) : ui :=
  match parsed, reader_onload parsed (model u) with
  | inr _, (a', Caught e) => unmount e (with_model u a')
  | _, (a', _) => with_model u a'
  end.

(** The callback of [nodeElements.classed('hidden', ...)]. *)
Definition hidden (u : ui) (d : node) : bool :=
  if negb (showCompleted u) && bool_decide (100 ≤ progress d)%Z then true
  else if negb (showActive u) && bool_decide (progress d < 100)%Z then true
  else false.

(** What the user and the file reader can make the component do. *)
Inductive event : Type :=
  | NodeClick (d : string)
  | SelectChange (c : choice)
  | ModalClose
  | FileLoaded (parsed : exn + json)
  | ToggleActive
  | ToggleCompleted
  | ToggleDependencies.

(** One handler run of the mounted component. *)
Definition handle (u : ui) (ev : event) : ui :=
  match ev with
  | NodeClick d => node_click d u
  | SelectChange c => select_onChange c u
  | ModalClose => close_modal u
  | FileLoaded parsed => file_loaded parsed u
  | ToggleActive =>
      Ui (model u) (selectedNode u) (negb (showActive u)) (showCompleted u)
         (showDependencies u) (crashed u)
  | ToggleCompleted =>
      Ui (model u) (selectedNode u) (showActive u) (negb (showCompleted u))
         (showDependencies u) (crashed u)
  | ToggleDependencies =>
      Ui (model u) (selectedNode u) (showActive u) (showCompleted u)
         (negb (showDependencies u)) (crashed u)
  end.

(** One event.  The run ends with the unmount: the tree has no element
    left to click, and a file read still under way at that moment is not
    followed. *)
Definition step (u : ui) (ev : event) : ui :=
  match crashed u with
  | None => handle u ev
  | Some _ => u
  end.

Definition run (u : ui) (evs : list event) : ui := foldl step u evs.

(** The state of the component when it is mounted: the [useState]
    initialisers. *)
Definition mount (init : list node) (s : storage) : option ui :=
  ns ← load init s; Some (Ui (App ns s) None true true true None).

End ReactUi.

(** ** script.js: links, loading and filters *)

Module ScriptUi.

(** [knowledgeGraph.links]: [flatMap] over [node.dependencies.map]; a node
    without a [dependencies] array makes the property read throw. *)
Fixpoint links_of (ns : list node) : exn + list edge :=
  match ns with
  | [] => inr []
  | n :: rest =>
      match dependencies n with
      | None => inl TypeError
      | Some deps =>
          match links_of rest with
          | inl e => inl e
          | inr ls => inr (((λ dep, Edge dep (id n)) <$> deps) ++ ls)
          end
      end
  end.

(** The callback of [forEach] in [loadProgress]; [None] when the stored
    value is not read as an integer. *)
Definition load_one (s : storage) (n : node) : option node :=
  match items s !! Script.storage_key (id n) with
  | Some stored => set_progress n <$> parseInt10 stored
  | None => Some n
  end.

Definition loadProgress (g : list node) (s : storage) : option (list node) :=
  list.mapM (load_one s) g.

(** The [DOMContentLoaded] handler: [loadProgress(); computeUnlocks();]. *)
Definition DOMContentLoaded (pg : Script.page) : option Script.page :=
  g ← loadProgress (Script.graph pg) (Script.local pg);
  Some (Script.Page (Script.computeUnlocks (Script.nodeMap pg) g)
                    (Script.nodeMap pg) (Script.local pg)).

(** The callback of [classed('hidden', ...)] in [applyFilters]. *)
Definition hidden (activeChecked completedChecked : bool) (d : node) : bool :=
  (negb completedChecked && bool_decide (100 ≤ progress d)%Z)
  || (negb activeChecked && bool_decide (progress d < 100)%Z).

End ScriptUi.

(** ** Vocabulary of the statements *)

Definition prerequisites (n : node) : list string := default [] (dependencies n).

(** A prerequisite id is satisfied in [ns]: some topic has that id and its
    progress is at least 75. *)
Definition satisfied (ns : list node) (p : string) : Prop :=
  ∃ d, d ∈ ns ∧ id d = p ∧ (75 ≤ progress d)%Z.

Definition unique_ids (ns : list node) : Prop := NoDup (id <$> ns).

(** The flag the loop of script.js assigns to a node, computed on the
    objects [g] as they were when the loop started. *)
Definition flag_of (nm : gmap string nat) (g : list node) (n : node) : node :=
  set_unlocked n (forallb (Script.dep_ok g nm) (prerequisites n)).

(** The objects after [k] iterations of that loop. *)
Definition loop_state (nm : gmap string nat) (g : list node) (k : nat) : list node :=
  (flag_of nm g <$> take k g) ++ drop k g.

(** The string id carried by a snapshot entry, if any. *)
Definition entry_id (e : json) : option string :=
  match get_prop e "id" with
  | inr (Some (JStr s)) => Some s
  | _ => None
  end.

(** The numeric progress carried by a snapshot entry, if any. *)
Definition entry_progress (e : json) : option Z :=
  match get_prop e "progress" with
  | inr x => as_number x
  | inl _ => None
  end.

Definition non_null (e : json) : Prop := e ≠ JNull.

(** An entry without an [id] field. *)
Definition lacks_id (e : json) : Prop := get_prop e "id" = inr None.

(** The first entry of a snapshot array that carries the id [s]. *)
Definition first_entry (arr : list json) (s : string) : option json :=
  snd <$> list_find (λ e, entry_id e = Some s) arr.

(** The number a snapshot assigns to a topic: the numeric progress of the
    first entry with the topic's id. *)
Definition import_target (arr : list json) (n : node) : option Z :=
  first_entry arr (id n) ≫= entry_progress.

Definition apply_entry (arr : list json) (n : node) : node :=
  match import_target arr n with
  | Some p => set_progress n (clamp p)
  | None => n
  end.

Definition persist_entry (arr : list json) (m : gmap string string) (n : node) :
    gmap string string :=
  match import_target arr n with
  | Some p => <[ReactApp.storage_key (id n) := String_of (clamp p)]> m
  | None => m
  end.

(** What the callback of the import decides for a topic before it touches
    the storage: the error it throws, or the number it takes from the
    array, if any. *)
Definition plan (arr : list json) (n : node) : exn + option Z :=
  match ReactApp.find_entry arr n with
  | inl e => inl e
  | inr None => inr None
  | inr (Some entry) =>
      match get_prop entry "progress" with
      | inl e => inl e
      | inr mp => inr (as_number mp)
      end
  end.

(** A topic without its derived flag. *)
Definition erase_flag (n : node) : node :=
  Node (id n) (title n) (description n) (dependencies n) (progress n) None.

(** What the curriculum author defines for a topic. *)
Definition static_fields (n : node) : string * string * string * option (list string) :=
  (id n, title n, description n, dependencies n).

(** The flags are the ones [computeUnlocks] gives. *)
Definition consistent (ns : list node) : Prop := ReactApp.computeUnlocks ns = ns.

Definition in_range (ns : list node) : Prop :=
  Forall (λ n, (0 ≤ progress n ≤ 100)%Z) ns.

(** Reloading the page from the storage gives the topic list in memory. *)
Definition in_sync (init : list node) (a : app) : Prop :=
  ReactUi.load init (store a) = Some (nodes a).

(** What the callback of the import returns for a topic, whatever the
    array holds. *)
Definition imported (n n' : node) : Prop :=
  n' = n ∨ ∃ p, n' = set_progress n (clamp p).

(** An integer that a JavaScript number holds exactly, that [String]
    writes with all its digits and that [parseInt] reads back exactly. *)
Definition safe_integer (z : Z) : Prop := (- 2 ^ 53 < z < 2 ^ 53)%Z.

(** Every value stored under the key of a topic of [init] is the text of a
    safe integer, as the handlers of the component write it. *)
Definition app_written (init : list node) (s : storage) : Prop :=
  ∀ n stored, n ∈ init → items s !! ReactApp.storage_key (id n) = Some stored →
    ∃ z, safe_integer z ∧ stored = String_of z.

(** The storage holds what the handlers wrote, and reloading the page from
    it gives the topic list in memory. *)
Definition persisted (init : list node) (a : app) : Prop :=
  app_written init (store a) ∧ in_sync init a.

(** An event of the user interface, as opposed to the end of a file read. *)
Definition user_event (ev : ReactUi.event) : Prop :=
  match ev with
  | ReactUi.FileLoaded _ => False
  | _ => True
  end.

(** The entry is an object whose [id] is the string [s]. *)
Definition has_id (e : json) (s : string) : Prop :=
  ∃ fields, e = JObj fields ∧ assoc_last "id" fields = Some (JStr s).

(** The entry is an object whose [progress] is the number [p]. *)
Definition has_progress (e : json) (p : Z) : Prop :=
  ∃ fields, e = JObj fields ∧ assoc_last "progress" fields = Some (JNum p).

(** The entry carries no number as its [progress]. *)
Definition progress_not_a_number (e : json) : Prop := ∀ p, ¬ has_progress e p.

(** * Properties *)

Import ReactApp.

Section find_node.
Context (ns : list node).

Lemma find_node_Some p d :
  find_node ns p = Some d ↔
  ∃ j, ns !! j = Some d ∧ id d = p ∧ ∀ k d', ns !! k = Some d' → k < j → id d' ≠ p.
Proof.
  unfold find_node. split.
  - intros H. apply fmap_Some in H as [[j d'] [H ->]].
    apply list_find_Some in H as (Hj & Hp & Hmin). exists j. eauto.
  - intros (j & Hj & Hp & Hmin). apply fmap_Some. exists (j, d). split; [|done].
    apply list_find_Some. eauto.
Qed.

Lemma find_node_None p : find_node ns p = None ↔ ∀ d, d ∈ ns → id d ≠ p.
Proof.
  unfold find_node. rewrite fmap_None, list_find_None, Forall_forall. done.
Qed.

Lemma find_node_unique p d :
  unique_ids ns → d ∈ ns → id d = p → find_node ns p = Some d.
Proof.
  intros Hnd Hin Hp. destruct (find_node ns p) as [d'|] eqn:E.
  - apply find_node_Some in E as (j & Hj & Hp' & _).
    apply list_elem_of_lookup in Hin as [i Hi].
    assert (i = j) as ->; [|congruence].
    eapply NoDup_lookup; [exact Hnd| |]; rewrite list_lookup_fmap.
    + by rewrite Hi.
    + rewrite Hj. simpl. congruence.
  - exfalso. eapply find_node_None; eauto.
Qed.

Lemma dep_ok_true p : unique_ids ns → dep_ok ns p = true ↔ satisfied ns p.
Proof.
  intros Hnd. unfold dep_ok, satisfied. destruct (find_node ns p) as [d|] eqn:E.
  - rewrite bool_decide_eq_true. apply find_node_Some in E as (j & Hj & Hp & _).
    assert (d ∈ ns) by (eapply list_elem_of_lookup_2; eauto). split.
    + intros. exists d. done.
    + intros (d' & Hin & Hp' & Hge).
      assert (find_node ns p = Some d') as E' by (by apply find_node_unique).
      assert (find_node ns p = Some d) as E'' by (by apply find_node_unique).
      congruence.
  - split; [done|]. intros (d & Hin & Hp & _). exfalso.
    eapply find_node_None; eauto.
Qed.
End find_node.

(** The two branches of [computeUnlocks] agree with one [every] over the
    prerequisite list. *)
Lemma unlock_one_every ns n :
  unlock_one ns n = set_unlocked n (forallb (dep_ok ns) (prerequisites n)).
Proof.
  unfold unlock_one, prerequisites. by destruct (dependencies n) as [[|p ds]|].
Qed.

Lemma computeUnlocks_lookup ns i n :
  ns !! i = Some n →
  computeUnlocks ns !! i = Some (set_unlocked n (forallb (dep_ok ns) (prerequisites n))).
Proof.
  intros H. unfold computeUnlocks. by rewrite list_lookup_fmap, H, <- unlock_one_every.
Qed.

Lemma every_dep_ok ns ds :
  unique_ids ns → forallb (dep_ok ns) ds = true ↔ ∀ p, p ∈ ds → satisfied ns p.
Proof.
  intros Hnd. rewrite forallb_forall. split; intros H p Hp.
  - apply dep_ok_true; [done|]. apply H. by apply list_elem_of_In.
  - apply dep_ok_true; [done|]. apply H. by apply list_elem_of_In.
Qed.

Lemma every_ext {A} (f g : A → bool) (l : list A) :
  (∀ x, f x = g x) → forallb f l = forallb g l.
Proof. intros H. induction l as [|x l IH]; simpl; [done|]. by rewrite H, IH. Qed.

(** *** The in-place [computeUnlocks] of script.js *)

Section script_unlocks.

Lemma nodeMap_from_lookup ns : ∀ i m p,
  unique_ids ns →
  Script.nodeMap_from i ns m !! p =
    match list_find (λ n, id n = p) ns with
    | Some (j, _) => Some (i + j)
    | None => m !! p
    end.
Proof.
  unfold unique_ids. induction ns as [|n rest IH]; intros i m p Hnd; [done|].
  rewrite fmap_cons in Hnd. apply NoDup_cons in Hnd as [Hn Hrest]. simpl.
  rewrite IH by done. case_decide as Hid.
  - assert (list_find (λ n0, id n0 = p) rest = None) as ->.
    { apply list_find_None, Forall_forall. intros x Hx Hxp. apply Hn.
      apply list_elem_of_fmap. exists x. split; [congruence|done]. }
    simpl. rewrite Hid, lookup_insert_eq. f_equal. lia.
  - destruct (list_find _ rest) as [[j x]|]; simpl.
    + f_equal. lia.
    + by rewrite lookup_insert_ne.
Qed.

Lemma get_node_find ns p :
  unique_ids ns → Script.get_node ns (Script.build_nodeMap ns) p = find_node ns p.
Proof.
  intros Hnd. unfold Script.get_node, Script.build_nodeMap, find_node.
  rewrite nodeMap_from_lookup by done.
  destruct (list_find _ ns) as [[j x]|] eqn:E; simpl.
  - apply list_find_Some in E as (Hj & _). done.
  - by rewrite lookup_empty.
Qed.

Context (nm : gmap string nat) (g : list node).

Lemma loop_state_progress k j :
  progress <$> (loop_state nm g k !! j) = progress <$> (g !! j).
Proof.
  unfold loop_state. rewrite <- !list_lookup_fmap, fmap_app, <- list_fmap_compose.
  replace (progress <$> g) with (progress <$> (take k g ++ drop k g))
    by (by rewrite take_drop).
  by rewrite fmap_app.
Qed.

Lemma dep_ok_loop_state k p : Script.dep_ok (loop_state nm g k) nm p = Script.dep_ok g nm p.
Proof.
  unfold Script.dep_ok, Script.get_node. destruct (nm !! p) as [j|]; simpl; [|done].
  pose proof (loop_state_progress k j) as H.
  destruct (loop_state nm g k !! j) as [x|], (g !! j) as [y|]; simpl in *;
    [injection H as ->; done | discriminate.. | done].
Qed.

Lemma unlock_at_loop_state k :
  k < length g → Script.unlock_at nm (loop_state nm g k) k = loop_state nm g (S k).
Proof.
  intros Hk. destruct (lookup_lt_is_Some_2 g k Hk) as [n Hn].
  assert (length (flag_of nm g <$> take k g) = k) as Hlen.
  { rewrite length_fmap, length_take. lia. }
  assert (loop_state nm g k !! k = Some n) as Hlk.
  { unfold loop_state. rewrite lookup_app_r by lia.
    rewrite Hlen, Nat.sub_diag, lookup_drop, Nat.add_0_r. done. }
  assert (<[k := flag_of nm g n]> (loop_state nm g k) = loop_state nm g (S k)) as <-.
  { unfold loop_state. rewrite insert_app_r_alt by lia.
    rewrite Hlen, Nat.sub_diag, (drop_S _ _ _ Hn). simpl.
    rewrite (take_S_r _ _ _ Hn), fmap_app. simpl. by rewrite <- app_assoc. }
  unfold Script.unlock_at. rewrite Hlk. unfold flag_of, prerequisites.
  destruct (dependencies n) as [[|p ds]|]; try done.
  do 2 f_equal. apply every_ext. intros q. apply dep_ok_loop_state.
Qed.

Lemma foldl_unlock_at k :
  k ≤ length g → foldl (Script.unlock_at nm) g (seq 0 k) = loop_state nm g k.
Proof.
  induction k as [|k IH]; intros Hk.
  - unfold loop_state. by rewrite take_0, drop_0.
  - rewrite seq_S, foldl_app, IH by lia. simpl. apply unlock_at_loop_state. lia.
Qed.

Lemma script_computeUnlocks_map : Script.computeUnlocks nm g = flag_of nm g <$> g.
Proof.
  unfold Script.computeUnlocks. rewrite foldl_unlock_at by done.
  unfold loop_state. by rewrite firstn_all, drop_all, app_nil_r.
Qed.

End script_unlocks.

(** On a topic list with unique ids, the in-place loop of script.js and the
    [map] of react_app.js assign the same flags. *)
Lemma script_computeUnlocks_react ns :
  unique_ids ns → Script.computeUnlocks (Script.build_nodeMap ns) ns = computeUnlocks ns.
Proof.
  intros Hnd. rewrite script_computeUnlocks_map. unfold computeUnlocks.
  apply list_fmap_ext. intros i n Hi. rewrite unlock_one_every. unfold flag_of.
  f_equal. apply every_ext. intros p. unfold Script.dep_ok, dep_ok.
  by rewrite get_node_find.
Qed.

(** *** The storage monad *)

Lemma setItem_writable key value s :
  writable s = true →
  setItem key value s = (Storage (<[key := value]> (items s)) true, inr tt).
Proof. unfold setItem. by intros ->. Qed.

Lemma setItem_unwritable key value s :
  writable s = false → setItem key value s = (s, inl StorageError).
Proof. unfold setItem. by intros ->. Qed.

Lemma mapM_ext {A B} (f g : A → M B) (l : list A) :
  (∀ x, x ∈ l → f x = g x) → mapM f l = mapM g l.
Proof.
  induction l as [|x l IH]; intros H; [done|]. simpl.
  rewrite (H x) by apply list_elem_of_here.
  rewrite IH; [done|]. intros y Hy. apply H. by apply list_elem_of_further.
Qed.

(** *** [Array.prototype.find] *)

Section array_find.
Context {A : Type} (p : A → exn + bool).

(** Removing elements on which the callback answers [false] does not
    change the outcome of [find]. *)
Lemma array_find_filter (Q : A → Prop) `{!∀ x, Decision (Q x)} (l : list A) :
  (∀ y, y ∈ l → ¬ Q y → p y = inr false) →
  array_find p (filter Q l) = array_find p l.
Proof.
  induction l as [|x l IH]; intros Hl; [done|].
  assert (array_find p (filter Q l) = array_find p l) as IH'.
  { apply IH. intros y Hy. apply Hl. by apply list_elem_of_further. }
  rewrite filter_cons. case_decide as HQ; simpl.
  - by rewrite IH'.
  - by rewrite (Hl x (list_elem_of_here _ _) HQ).
Qed.

Lemma array_find_delete_false (l : list A) : ∀ k y,
  l !! k = Some y → p y = inr false →
  array_find p (delete k l) = array_find p l.
Proof.
  induction l as [|x l IH]; intros [|k] y Hk Hy; simplify_eq/=.
  - by rewrite Hy.
  - by rewrite (IH k y).
Qed.

(** Removing an element that sits behind one with the same callback
    answer does not change the outcome of [find]. *)
Lemma array_find_delete_later (l : list A) : ∀ j k x y,
  j < k → l !! j = Some x → l !! k = Some y → p y = p x →
  array_find p (delete k l) = array_find p l.
Proof.
  induction l as [|a l IH]; intros j k x y Hjk Hj Hk Hp; [done|].
  destruct k as [|k]; [lia|]. simpl in Hk |- *.
  destruct (p a) as [e|[|]] eqn:Ha; try done.
  destruct j as [|j]; simplify_eq/=.
  - apply (array_find_delete_false l k y); congruence.
  - apply (IH j k x y); [lia|done..].
Qed.

(** When the callback never throws, [find] is the first element on which
    it answers [true]. *)
Lemma array_find_total (P : A → Prop) `{!∀ x, Decision (P x)} (l : list A) :
  (∀ x, x ∈ l → p x = inr (bool_decide (P x))) →
  array_find p l = inr (snd <$> list_find P l).
Proof.
  induction l as [|x l IH]; intros Hl; [done|]. simpl.
  rewrite (Hl x) by apply list_elem_of_here. case_decide as HP.
  - by rewrite bool_decide_eq_true_2.
  - rewrite bool_decide_eq_false_2 by done. rewrite IH.
    + by destruct (list_find P l) as [[i y]|].
    + intros y Hy. apply Hl. by apply list_elem_of_further.
Qed.
End array_find.

(** *** The import updater *)

#[global] Instance lacks_id_dec e : Decision (lacks_id e).
Proof.
  unfold lacks_id. destruct (get_prop e "id") as [x|[v|]];
    (left; reflexivity) || (right; discriminate).
Defined.

Lemma id_test_non_null e n :
  e ≠ JNull →
  match get_prop e "id" with
  | inl x => inl x
  | inr x => inr (strict_eq_string x (id n))
  end = inr (bool_decide (entry_id e = Some (id n))).
Proof.
  intros He. unfold entry_id. destruct e as [| | | | |fields]; try done. simpl.
  destruct (assoc_last "id" fields) as [[| | |t| |]|]; simpl; try done.
  f_equal. apply bool_decide_ext. split; congruence.
Qed.

Lemma id_test_other e n :
  e ≠ JNull → entry_id e ≠ Some (id n) →
  match get_prop e "id" with
  | inl x => inl x
  | inr x => inr (strict_eq_string x (id n))
  end = inr false.
Proof.
  intros He Hid. rewrite id_test_non_null by done. by rewrite bool_decide_eq_false_2.
Qed.

Lemma find_entry_total arr n :
  Forall non_null arr → find_entry arr n = inr (first_entry arr (id n)).
Proof.
  intros Harr. unfold find_entry, first_entry. apply array_find_total.
  intros e He. apply id_test_non_null. by eapply (proj1 (Forall_forall _ _) Harr).
Qed.

Lemma first_entry_Some arr s e :
  first_entry arr s = Some e ↔
  ∃ j, arr !! j = Some e ∧ entry_id e = Some s ∧
       ∀ k e', arr !! k = Some e' → k < j → entry_id e' ≠ Some s.
Proof.
  unfold first_entry. split.
  - intros H. apply fmap_Some in H as [[j e'] [H ->]].
    apply list_find_Some in H as (Hj & Hp & Hmin). exists j. eauto.
  - intros (j & Hj & Hp & Hmin). apply fmap_Some. exists (j, e). split; [|done].
    apply list_find_Some. eauto.
Qed.

Lemma first_entry_None arr s :
  first_entry arr s = None ↔ ∀ e, e ∈ arr → entry_id e ≠ Some s.
Proof. unfold first_entry. by rewrite fmap_None, list_find_None, Forall_forall. Qed.

Lemma import_one_run arr n s :
  Forall non_null arr → writable s = true →
  import_one arr n s =
    (Storage (persist_entry arr (items s) n) true, inr (apply_entry arr n)).
Proof.
  intros Harr Hw. unfold import_one, persist_entry, apply_entry, import_target.
  rewrite find_entry_total by done.
  unfold mbind, M_bind, bind, lift, mret, M_ret, ret.
  destruct (first_entry arr (id n)) as [e|] eqn:E; simpl.
  - apply first_entry_Some in E as (j & _ & He & _). unfold entry_progress.
    unfold entry_id in He. destruct e as [| | | | |fields]; try done. simpl.
    destruct (as_number _) as [p|]; simpl.
    + by rewrite setItem_writable.
    + destruct s; simpl in *; by subst.
  - destruct s; simpl in *; by subst.
Qed.

Lemma mapM_import_run arr ns : ∀ s,
  Forall non_null arr → writable s = true →
  mapM (import_one arr) ns s =
    (Storage (foldl (persist_entry arr) (items s) ns) true, inr (apply_entry arr <$> ns)).
Proof.
  induction ns as [|n ns IH]; intros s Harr Hw.
  - destruct s; simpl in *; by subst.
  - simpl. unfold mbind, M_bind, bind at 1. rewrite import_one_run by done.
    unfold bind at 1. rewrite IH by done. done.
Qed.

Lemma reader_onload_applied arr a :
  Forall non_null arr → writable (store a) = true →
  reader_onload (inr (JArr arr)) a =
    (App (computeUnlocks (apply_entry arr <$> nodes a))
         (Storage (foldl (persist_entry arr) (items (store a)) (nodes a)) true),
     Applied).
Proof.
  intros Harr Hw. unfold reader_onload, setNodes, import_updater. simpl.
  unfold mbind, M_bind, bind. by rewrite mapM_import_run.
Qed.

(** Two arrays on which every topic finds the same entry import alike. *)
Lemma reader_onload_ext arr arr' a :
  (∀ n, n ∈ nodes a → find_entry arr' n = find_entry arr n) →
  reader_onload (inr (JArr arr')) a = reader_onload (inr (JArr arr)) a.
Proof.
  intros H. unfold reader_onload, setNodes, import_updater. simpl.
  rewrite (mapM_ext (import_one arr') (import_one arr)); [done|].
  intros n Hn. unfold import_one. by rewrite H.
Qed.

(** *** Updates that keep ids *)

Lemma every_ext_in {A} (f g : A → bool) (l : list A) :
  (∀ x, x ∈ l → f x = g x) → forallb f l = forallb g l.
Proof.
  induction l as [|x l IH]; intros Hl; simpl; [done|].
  rewrite (Hl x) by apply list_elem_of_here.
  rewrite IH; [done|]. intros y Hy. apply Hl. by apply list_elem_of_further.
Qed.

Lemma find_node_fmap (f : node → node) ns p :
  (∀ n, id (f n) = id n) → find_node (f <$> ns) p = f <$> find_node ns p.
Proof.
  intros Hid. unfold find_node. rewrite list_find_fmap.
  rewrite (list_find_ext _ (λ n, id n = p)).
  - by destruct (list_find _ ns) as [[j d]|].
  - intros n. simpl. by rewrite Hid.
Qed.

Lemma dep_ok_fmap (f : node → node) ns p :
  (∀ n, id (f n) = id n) → (∀ n, id n = p → progress (f n) = progress n) →
  dep_ok (f <$> ns) p = dep_ok ns p.
Proof.
  intros Hid Hpr. unfold dep_ok. rewrite find_node_fmap by done.
  destruct (find_node ns p) as [d|] eqn:E; simpl; [|done].
  apply find_node_Some in E as (j & _ & Hd & _). by rewrite Hpr.
Qed.

Lemma dep_ok_computeUnlocks ns p : dep_ok (computeUnlocks ns) p = dep_ok ns p.
Proof.
  unfold computeUnlocks. apply dep_ok_fmap; intros n; rewrite unlock_one_every; done.
Qed.

Lemma update_one_id i v n : id (update_one i v n) = id n.
Proof. unfold update_one. by case_bool_decide. Qed.

Lemma update_one_prerequisites i v n : prerequisites (update_one i v n) = prerequisites n.
Proof. unfold update_one. by case_bool_decide. Qed.

Lemma update_one_other i v n : id n ≠ i → update_one i v n = n.
Proof. unfold update_one. intros H. by rewrite bool_decide_eq_false_2. Qed.

Lemma update_one_same i v n : id n = i → update_one i v n = set_progress n v.
Proof. unfold update_one. intros H. by rewrite bool_decide_eq_true_2. Qed.

(** After the update, a prerequisite set below 75 is not satisfied. *)
Lemma dep_ok_lowered ns p v : (v < 75)%Z → dep_ok (update_one p v <$> ns) p = false.
Proof.
  intros Hv. unfold dep_ok. rewrite find_node_fmap by apply update_one_id.
  destruct (find_node ns p) as [d|] eqn:E; simpl; [|done].
  apply find_node_Some in E as (j & _ & Hd & _).
  rewrite update_one_same by done. simpl. apply bool_decide_eq_false_2. lia.
Qed.

(** The update does not change whether another prerequisite is satisfied. *)
Lemma dep_ok_other ns p v q : q ≠ p → dep_ok (update_one p v <$> ns) q = dep_ok ns q.
Proof.
  intros Hq. apply dep_ok_fmap; [apply update_one_id|].
  intros n Hn. rewrite update_one_other; [done|congruence].
Qed.

Lemma updateProgress_run i v a :
  writable (store a) = true →
  updateProgress i v a =
    (App (computeUnlocks (update_one i v <$> nodes a))
         (Storage (<[storage_key i := String_of v]> (items (store a))) true),
     inr tt).
Proof.
  intros Hw. unfold updateProgress, setNodes, update_updater.
  unfold mbind, M_bind, bind. by rewrite setItem_writable.
Qed.

Lemma updateProgress_throws i v a :
  writable (store a) = false → updateProgress i v a = (a, inl StorageError).
Proof.
  intros Hw. unfold updateProgress, setNodes, update_updater.
  unfold mbind, M_bind, bind. rewrite setItem_unwritable by done. by destruct a.
Qed.

Lemma updateProgress_lookup i v a k n :
  writable (store a) = true → nodes a !! k = Some n →
  ∃ b, nodes (updateProgress i v a).1 !! k = Some (set_unlocked (update_one i v n) b).
Proof.
  intros Hw Hk. rewrite updateProgress_run by done. simpl. eexists.
  apply computeUnlocks_lookup. by rewrite list_lookup_fmap, Hk.
Qed.

Lemma select_onchange_run ref v p n :
  writable (Script.local p) = true → Script.graph p !! ref = Some n →
  Script.select_onchange ref v p =
    (Script.Page
       (Script.computeUnlocks (Script.nodeMap p) (<[ref := set_progress n v]> (Script.graph p)))
       (Script.nodeMap p)
       (Storage (<[Script.storage_key (id n) := String_of v]> (items (Script.local p))) true),
     inr tt).
Proof.
  intros Hw Hn. unfold Script.select_onchange, Script.saveProgress. rewrite Hn. simpl.
  by rewrite setItem_writable.
Qed.

(** *** What the import does to one topic *)

Lemma entry_id_get_prop e s :
  entry_id e = Some s → get_prop e "id" = inr (Some (JStr s)).
Proof.
  unfold entry_id. destruct (get_prop e "id") as [x|[[| | |t| |]|]]; try done.
  by intros [= ->].
Qed.

Lemma apply_entry_id arr n : id (apply_entry arr n) = id n.
Proof. unfold apply_entry. by destruct (import_target arr n). Qed.

Lemma apply_entry_absent arr n :
  (∀ e, e ∈ arr → entry_id e ≠ Some (id n)) → apply_entry arr n = n.
Proof.
  intros H. unfold apply_entry, import_target.
  by rewrite (proj2 (first_entry_None arr (id n)) H).
Qed.

Lemma apply_entry_first arr n j e :
  arr !! j = Some e → entry_id e = Some (id n) →
  (∀ j' e', arr !! j' = Some e' → j' < j → entry_id e' ≠ Some (id n)) →
  progress (apply_entry arr n) =
    match entry_progress e with Some p => clamp p | None => progress n end.
Proof.
  intros Hj He Hmin. unfold apply_entry, import_target.
  rewrite (proj2 (first_entry_Some arr (id n) e)) by eauto. simpl.
  by destruct (entry_progress e).
Qed.

Lemma imported_lookup arr a k n :
  Forall non_null arr → writable (store a) = true → nodes a !! k = Some n →
  ∃ b, nodes (reader_onload (inr (JArr arr)) a).1 !! k
         = Some (set_unlocked (apply_entry arr n) b).
Proof.
  intros Harr Hw Hk. rewrite reader_onload_applied by done. simpl. eexists.
  apply computeUnlocks_lookup. by rewrite list_lookup_fmap, Hk.
Qed.

(** Entries without an [id] field can be removed from the array. *)
Lemma import_drops_idless arr a :
  reader_onload (inr (JArr (filter (λ e, ¬ lacks_id e) arr))) a
    = reader_onload (inr (JArr arr)) a.
Proof.
  apply reader_onload_ext. intros n Hn. unfold find_entry.
  apply array_find_filter. intros y Hy Hlacks.
  apply dec_stable in Hlacks. unfold lacks_id in Hlacks. by rewrite Hlacks.
Qed.

(** *** Entries whose progress is not a number *)

Lemma first_entry_cons e arr s :
  first_entry (e :: arr) s =
    if decide (entry_id e = Some s) then Some e else first_entry arr s.
Proof.
  unfold first_entry. simpl. case_decide; [done|].
  by destruct (list_find _ arr) as [[j x]|].
Qed.

Lemma import_one_total arr n s :
  Forall non_null arr →
  import_one arr n s =
    match import_target arr n with
    | Some p =>
        (setItem (storage_key (id n)) (String_of (clamp p));;
         mret (set_progress n (clamp p))) s
    | None => (s, inr n)
    end.
Proof.
  intros Harr. unfold import_one, import_target.
  rewrite find_entry_total by done.
  unfold mbind, M_bind, bind, lift, mret, M_ret, ret.
  destruct (first_entry arr (id n)) as [e|] eqn:E; simpl; [|done].
  apply first_entry_Some in E as (j & _ & He & _). unfold entry_progress.
  unfold entry_id in He. destruct e as [| | | | |fields]; try done. simpl.
  by destruct (as_number _).
Qed.

Lemma mapM_ext_run {A B} (f g : A → M B) (l : list A) :
  (∀ x s, x ∈ l → f x s = g x s) → ∀ s, mapM f l s = mapM g l s.
Proof.
  induction l as [|x l IH]; intros Hl s; [done|]. simpl.
  unfold mbind, M_bind, bind. rewrite (Hl x s) by apply list_elem_of_here.
  destruct (g x s) as [s' [e|y]]; [done|].
  rewrite IH; [done|]. intros z t Hz. apply Hl. by apply list_elem_of_further.
Qed.

(** The vocabulary of the statements about entries, in terms of the
    fields of the parsed object. *)
Lemma has_id_entry_id e s : has_id e s ↔ entry_id e = Some s.
Proof.
  unfold has_id, entry_id. split.
  - intros (fields & -> & H). simpl. by rewrite H.
  - destruct e as [| | | | |fields]; try done. simpl.
    destruct (assoc_last "id" fields) as [[| | |t| |]|] eqn:E; try done.
    intros [= ->]. eauto.
Qed.

Lemma has_progress_entry_progress e p : has_progress e p ↔ entry_progress e = Some p.
Proof.
  unfold has_progress, entry_progress. split.
  - intros (fields & -> & H). simpl. by rewrite H.
  - destruct e as [| | | | |fields]; try done. simpl.
    destruct (assoc_last "progress" fields) as [[| |z| | |]|] eqn:E; try done.
    intros [= ->]. eauto.
Qed.

Lemma progress_not_a_number_None e : progress_not_a_number e ↔ entry_progress e = None.
Proof.
  unfold progress_not_a_number. rewrite eq_None_not_Some. split.
  - intros H [p Hp]. by apply (H p), has_progress_entry_progress.
  - intros H p Hp. apply H. exists p. by apply has_progress_entry_progress.
Qed.

(** An entry without a numeric progress decides nothing for the id [s]
    unless it comes before another entry with that id. *)
Lemma import_target_delete s : ∀ arr j e,
  arr !! j = Some e → entry_progress e = None →
  (entry_id e = Some s →
   ∀ j' e', arr !! j' = Some e' → j < j' → entry_id e' ≠ Some s) →
  first_entry (delete j arr) s ≫= entry_progress = first_entry arr s ≫= entry_progress.
Proof.
  induction arr as [|x arr IH]; intros j e Hj Hnum Hlast; [done|].
  destruct j as [|j]; simpl in Hj.
  - injection Hj as ->. simpl. rewrite first_entry_cons. case_decide as He; [|done].
    simpl. rewrite Hnum. rewrite (proj2 (first_entry_None arr s)); [done|].
    intros e' He'. apply list_elem_of_lookup in He' as [j' Hj'].
    apply (Hlast He (S j') e' Hj'). lia.
  - simpl. rewrite !first_entry_cons. case_decide as Hx; [done|].
    apply (IH j e Hj Hnum). intros He j' e' Hj' Hlt.
    apply (Hlast He (S j') e' Hj'). lia.
Qed.

Lemma non_null_delete (arr : list json) j : Forall non_null arr → Forall non_null (delete j arr).
Proof.
  intros H. apply Forall_forall. intros e He.
  apply (proj1 (Forall_forall _ _) H). by eapply list_elem_of_delete_inv.
Qed.

(** An entry without a numeric progress that is not followed by an entry
    with the same id can be removed from the array. *)
Lemma import_drops_non_numeric arr a j e :
  Forall non_null arr → arr !! j = Some e → entry_progress e = None →
  (∀ s j' e', entry_id e = Some s → arr !! j' = Some e' → j < j' → entry_id e' ≠ Some s) →
  reader_onload (inr (JArr (delete j arr))) a = reader_onload (inr (JArr arr)) a.
Proof.
  intros Harr Hj Hnum Hlast. unfold reader_onload, setNodes, import_updater. simpl.
  unfold mbind, M_bind, bind.
  rewrite (mapM_ext_run _ (import_one arr)); [done|].
  intros n s _. rewrite !import_one_total; [|done|by apply non_null_delete].
  unfold import_target. rewrite (import_target_delete (id n) arr j e); [done..|].
  intros He j' e'. by apply Hlast.
Qed.

(** *** Exported snapshots *)

Lemma export_entry_id n : entry_id (export_entry n) = Some (id n).
Proof. done. Qed.

Lemma export_entry_progress n : entry_progress (export_entry n) = Some (progress n).
Proof. done. Qed.

Lemma export_non_null ns : Forall non_null (export_entry <$> ns).
Proof. apply Forall_fmap, Forall_forall. intros n _. done. Qed.

Lemma apply_entry_export ns c n :
  unique_ids ns → n ∈ ns → id n = id c →
  progress (apply_entry (export_entry <$> ns) c) = clamp (progress n).
Proof.
  intros Hnd Hn Hid. apply list_elem_of_lookup in Hn as [j Hj].
  rewrite (apply_entry_first _ c j (export_entry n)).
  - by rewrite export_entry_progress.
  - by rewrite list_lookup_fmap, Hj.
  - by rewrite export_entry_id, Hid.
  - intros j' e' Hj' Hlt He'. rewrite list_lookup_fmap in Hj'.
    destruct (ns !! j') as [n'|] eqn:E; simplify_eq/=.
    assert (j' = j); [|lia].
    eapply NoDup_lookup; [exact Hnd| |]; rewrite list_lookup_fmap.
    + by rewrite E.
    + rewrite Hj. simpl. congruence.
Qed.

(** *** Storage keys *)

Lemma react_key_inj i j : ReactApp.storage_key i = ReactApp.storage_key j → i = j.
Proof. unfold ReactApp.storage_key. apply (inj (String.append _)). Qed.

Lemma script_key_inj i j : Script.storage_key i = Script.storage_key j → i = j.
Proof. unfold Script.storage_key. apply (inj (String.append _)). Qed.

Lemma keys_disjoint i j : ReactApp.storage_key i ≠ Script.storage_key j.
Proof.
  unfold ReactApp.storage_key, Script.storage_key. intros H.
  cbv [String.append] in H. discriminate H.
Qed.

(** *** What an import writes *)

Lemma persist_lookup arr ns : ∀ m i,
  foldl (persist_entry arr) m ns !! storage_key i =
    match first_entry arr i ≫= entry_progress with
    | Some p =>
        if decide (i ∈ id <$> ns) then Some (String_of (clamp p))
        else m !! storage_key i
    | None => m !! storage_key i
    end.
Proof.
  induction ns as [|n ns IH]; intros m i.
  - simpl. by destruct (_ ≫= _).
  - rewrite fmap_cons. cbn [foldl]. rewrite IH. clear IH.
    destruct (decide (id n = i)) as [<-|Hne].
    + unfold persist_entry, import_target.
      destruct (first_entry arr (id n) ≫= entry_progress) as [p|]; [|done].
      rewrite lookup_insert_eq, (decide_True (P := id n ∈ id n :: _));
        [|apply list_elem_of_here].
      by case_decide.
    + assert (persist_entry arr m n !! storage_key i = m !! storage_key i) as ->.
      { unfold persist_entry. destruct (import_target arr n); [|done].
        apply lookup_insert_ne. intros Hk. by apply react_key_inj in Hk. }
      assert (i ∈ id n :: (id <$> ns) ↔ i ∈ id <$> ns) as Hin.
      { rewrite elem_of_cons. split; [intros [Heq|?]; [by subst|done]|by right]. }
      destruct (first_entry arr i ≫= entry_progress) as [p|]; [|done].
      by rewrite (decide_ext _ _ _ _ Hin).
Qed.

(** * The claims *)

(** C1: after [computeUnlocks], the [unlocked] flag of a topic is true
    exactly when every one of its prerequisite ids is the id of a topic with
    progress at least 75, and nothing but the flag is changed.  A topic
    without prerequisites is unlocked; a prerequisite id that no topic
    carries keeps the topic locked; a prerequisite at progress 75 counts as
    reached, one at 74 does not.  The in-place loop of script.js assigns the
    same flags as the [map] of react_app.js. *)
Theorem C1_unlocked_iff_prerequisites_reached (ns : list node) :
  unique_ids ns →
  (∀ i n, ns !! i = Some n →
     ∃ n' b, computeUnlocks ns !! i = Some n' ∧ erase_flag n' = erase_flag n ∧
             unlocked n' = Some b ∧
             (b = true ↔ ∀ p, p ∈ prerequisites n → satisfied ns p)) ∧
  (∀ i n, ns !! i = Some n →
     ∃ n' b, Script.computeUnlocks (Script.build_nodeMap ns) ns !! i = Some n' ∧
             erase_flag n' = erase_flag n ∧ unlocked n' = Some b ∧
             (b = true ↔ ∀ p, p ∈ prerequisites n → satisfied ns p)) ∧
  (∀ i n, ns !! i = Some n → prerequisites n = [] →
     unlocked <$> (computeUnlocks ns !! i) = Some (Some true)) ∧
  (∀ i n p, ns !! i = Some n → p ∈ prerequisites n → (∀ d, d ∈ ns → id d ≠ p) →
     unlocked <$> (computeUnlocks ns !! i) = Some (Some false)) ∧
  (∀ i n p d, ns !! i = Some n → prerequisites n = [p] → d ∈ ns → id d = p →
     (progress d = 75%Z → unlocked <$> (computeUnlocks ns !! i) = Some (Some true)) ∧
     (progress d = 74%Z → unlocked <$> (computeUnlocks ns !! i) = Some (Some false))).
Proof.
  intros Hnd.
  assert (∀ i n, ns !! i = Some n →
     ∃ n' b, computeUnlocks ns !! i = Some n' ∧ erase_flag n' = erase_flag n ∧
             unlocked n' = Some b ∧
             (b = true ↔ ∀ p, p ∈ prerequisites n → satisfied ns p)) as Hreact.
  { intros i n Hi. eexists _, _. split; [by apply computeUnlocks_lookup|].
    split; [done|]. split; [done|]. by apply every_dep_ok. }
  split; [exact Hreact|]. split; [|split; [|split]].
  - intros i n Hi. rewrite script_computeUnlocks_react by done. by apply Hreact.
  - intros i n Hi Hnil. by rewrite (computeUnlocks_lookup _ _ _ Hi), Hnil.
  - intros i n p Hi Hp Hmiss. rewrite (computeUnlocks_lookup _ _ _ Hi). simpl.
    do 2 f_equal. apply not_true_is_false. intros Hall.
    destruct (proj1 (every_dep_ok ns _ Hnd) Hall p Hp) as (d & Hd & Hid & _).
    by apply (Hmiss d).
  - intros i n p d Hi Hpre Hd Hid.
    assert (find_node ns p = Some d) as Hfind by (by apply find_node_unique).
    rewrite (computeUnlocks_lookup _ _ _ Hi), Hpre. simpl. unfold dep_ok.
    rewrite Hfind. split; intros ->; done.
Qed.

Lemma initialNodes_unique_ids : unique_ids initialNodes.
Proof. unfold unique_ids. apply (bool_decide_unpack _). by vm_compute. Defined.

Lemma C1_unlocked_iff_prerequisites_reached_witness :
  let ns := update_one "basics" 75 <$> initialNodes in
  unique_ids ns ∧
  unlocked <$> (computeUnlocks ns !! 0) = Some (Some true) ∧
  unlocked <$> (computeUnlocks ns !! 1) = Some (Some true) ∧
  ∃ n' b, computeUnlocks ns !! 3 = Some n' ∧ unlocked n' = Some b ∧ b ≠ true.
Proof.
  intros ns.
  assert (unique_ids ns) as Hnd.
  { unfold unique_ids. apply (bool_decide_unpack _). by vm_compute. }
  destruct (C1_unlocked_iff_prerequisites_reached ns Hnd)
    as (Hiff & _ & Hnone & _ & Hbound).
  split; [exact Hnd|]. split; [|split].
  - by apply (Hnone 0 _ eq_refl).
  - refine (proj1 (Hbound 1 _ "basics"
              (Node "basics" "Programming Fundamentals"
                 "Learn variables, control flow, functions and the building blocks of code."
                 (Some []) 75 None) eq_refl eq_refl _ eq_refl) eq_refl).
    apply list_elem_of_here.
  - destruct (Hiff 3 _ eq_refl) as (n' & b & Hn' & _ & Hb & Hsat).
    exists n', b. split; [exact Hn'|]. split; [exact Hb|].
    intros Htrue. destruct (proj1 Hsat Htrue "datastructures") as (d & Hd & Hid & Hge).
    { apply list_elem_of_here. }
    revert d Hd Hid Hge.
    apply (proj1 (Forall_forall
             (λ d, id d = "datastructures" → ¬ (75 ≤ progress d)%Z) ns)).
    apply (bool_decide_unpack _). by vm_compute.
Defined.

(** C7: [computeUnlocks] is idempotent: applied to its own output it
    returns that output, so every flag is the same after the second
    application. *)
Theorem C7_computeUnlocks_idempotent (ns : list node) :
  computeUnlocks (computeUnlocks ns) = computeUnlocks ns ∧
  unlocked <$> computeUnlocks (computeUnlocks ns) = unlocked <$> computeUnlocks ns.
Proof.
  assert (computeUnlocks (computeUnlocks ns) = computeUnlocks ns) as H; [|by rewrite H].
  apply list_eq. intros i. destruct (ns !! i) as [n|] eqn:Hi.
  - rewrite (computeUnlocks_lookup _ _ _ (computeUnlocks_lookup _ _ _ Hi)).
    rewrite (computeUnlocks_lookup _ _ _ Hi). unfold set_unlocked. simpl.
    do 3 f_equal. apply every_ext, dep_ok_computeUnlocks.
  - unfold computeUnlocks. by rewrite !list_lookup_fmap, Hi.
Qed.

Lemma clamp_id_iff v : v = clamp v ↔ (0 ≤ v ≤ 100)%Z.
Proof. unfold clamp. lia. Qed.

(** C9: [updateProgress] keeps the number of topics and, for every topic,
    its id, title, description and prerequisite list; the progress of a
    topic with a different id is unchanged.  This holds whether or not the
    storage write succeeds. *)
Theorem C9_updateProgress_frame (i : string) (v : Z) (a : app) (k : nat) (n : node) :
  nodes a !! k = Some n →
  length (nodes (updateProgress i v a).1) = length (nodes a) ∧
  ∃ n', nodes (updateProgress i v a).1 !! k = Some n' ∧
        id n' = id n ∧ title n' = title n ∧ description n' = description n ∧
        dependencies n' = dependencies n ∧
        (id n ≠ i → progress n' = progress n).
Proof.
  intros Hk. destruct (writable (store a)) eqn:Hw.
  - destruct (updateProgress_lookup i v a k n Hw Hk) as [b Hb]. split.
    + rewrite updateProgress_run by done. simpl. unfold computeUnlocks.
      by rewrite !length_fmap.
    + eexists. split; [exact Hb|]. unfold update_one. case_bool_decide; simpl; done.
  - rewrite updateProgress_throws by done. simpl. split; [done|]. by exists n.
Qed.

Lemma C9_updateProgress_frame_witness :
  ∃ n', nodes (updateProgress "basics" 75 (App initialNodes (Storage ∅ true))).1 !! 1
          = Some n' ∧ id n' = "datastructures" ∧ progress n' = 0%Z.
Proof.
  destruct (C9_updateProgress_frame "basics" 75 (App initialNodes (Storage ∅ true)) 1 _ eq_refl)
    as (_ & n' & Hn' & Hid & _ & _ & _ & Hpr).
  exists n'. split; [exact Hn'|]. split; [exact Hid|]. by apply Hpr.
Defined.

(** C2 (amended): the progress-update path stores the value it is given,
    without clamping: after [updateProgress] in react_app.js, and after the
    drop-down handler in script.js, the topic's progress is the value
    itself, which is min(100, max(0, value)) exactly when the value lies in
    [0, 100]. *)
Theorem C2_update_stores_value_unclamped :
  (∀ i v a k n,
     writable (store a) = true → nodes a !! k = Some n → id n = i →
     ∃ n', nodes (updateProgress i v a).1 !! k = Some n' ∧ progress n' = v ∧
           (progress n' = clamp v ↔ (0 ≤ v ≤ 100)%Z)) ∧
  (∀ ref v p n,
     writable (Script.local p) = true → Script.graph p !! ref = Some n →
     ∃ n', Script.graph (Script.select_onchange ref v p).1 !! ref = Some n' ∧
           progress n' = v ∧ (progress n' = clamp v ↔ (0 ≤ v ≤ 100)%Z)).
Proof.
  split.
  - intros i v a k n Hw Hk Hid.
    destruct (updateProgress_lookup i v a k n Hw Hk) as [b Hb].
    rewrite update_one_same in Hb by done.
    eexists. split; [exact Hb|]. simpl. split; [done|]. apply clamp_id_iff.
  - intros ref v p n Hw Hn. rewrite (select_onchange_run _ _ _ _ Hw Hn). simpl.
    rewrite script_computeUnlocks_map, list_lookup_fmap.
    rewrite list_lookup_insert_eq by (by eapply lookup_lt_Some).
    eexists. split; [done|]. simpl. split; [done|]. apply clamp_id_iff.
Qed.

Lemma C2_update_stores_value_unclamped_witness :
  (∃ n', nodes (updateProgress "basics" 75 (App initialNodes (Storage ∅ true))).1 !! 0
           = Some n' ∧ progress n' = 75%Z) ∧
  (∃ n', Script.graph (Script.select_onchange 0 75
           (Script.Page initialNodes (Script.build_nodeMap initialNodes) (Storage ∅ true))).1 !! 0
           = Some n' ∧ progress n' = 75%Z).
Proof.
  destruct C2_update_stores_value_unclamped as [HR HS]. split.
  - destruct (HR "basics" 75%Z (App initialNodes (Storage ∅ true)) 0 _ eq_refl eq_refl eq_refl)
      as (n' & Hn' & Hp & _). by exists n'.
  - destruct (HS 0 75%Z
      (Script.Page initialNodes (Script.build_nodeMap initialNodes) (Storage ∅ true))
      _ eq_refl eq_refl) as (n' & Hn' & Hp & _). by exists n'.
Defined.

(** C2 fails as stated: [updateProgress("basics", 150)] stores 150, not
    min(100, max(0, 150)) = 100. *)
Lemma C2_counterexample :
  progress <$> (nodes (updateProgress "basics" 150
                  (App (computeUnlocks initialNodes) (Storage ∅ true))).1 !! 0)
    = Some 150%Z ∧
  Some 150%Z ≠ Some (clamp 150).
Proof. split; [reflexivity|]. by vm_compute. Qed.

(** C8 (amended): the save path has no failure handling.  In react_app.js,
    when the storage write throws inside the updater of [updateProgress],
    the call returns to the change handler of the modal, which closes the
    modal; React raises the error when it renders and unmounts the
    component tree.  The topic list and the storage are as they were: the
    progress change is not applied.  In script.js the exception leaves the
    change handler after the progress assignment, which stays in memory,
    and before the flags are recomputed. *)
Theorem C8_storage_failure_not_caught :
  (∀ u sel c,
     ReactUi.crashed u = None → ReactUi.selectedNode u = Some sel →
     writable (store (ReactUi.model u)) = false →
     ReactUi.step u (ReactUi.SelectChange c) =
       ReactUi.Ui (ReactUi.model u) None (ReactUi.showActive u) (ReactUi.showCompleted u)
                  (ReactUi.showDependencies u) (Some StorageError)) ∧
  (∀ ref v p n,
     writable (Script.local p) = false → Script.graph p !! ref = Some n →
     Script.select_onchange ref v p =
       (Script.Page (<[ref := set_progress n v]> (Script.graph p))
                    (Script.nodeMap p) (Script.local p),
        inl StorageError)).
Proof.
  split.
  - intros u sel c Hc Hsel Hw. unfold ReactUi.step. rewrite Hc. simpl.
    unfold ReactUi.select_onChange. rewrite Hsel.
    by rewrite updateProgress_throws.
  - intros ref v p n Hw Hn. unfold Script.select_onchange, Script.saveProgress.
    rewrite Hn. simpl. by rewrite setItem_unwritable.
Qed.

Lemma C8_storage_failure_not_caught_witness :
  let a := App (computeUnlocks initialNodes) (Storage ∅ false) in
  let u := ReactUi.run (ReactUi.Ui a None true true true None) [ReactUi.NodeClick "basics"] in
  ReactUi.step u (ReactUi.SelectChange ReactUi.P75)
    = ReactUi.Ui a None true true true (Some StorageError) ∧
  (Script.select_onchange 0 75
     (Script.Page initialNodes (Script.build_nodeMap initialNodes) (Storage ∅ false))).2
    = inl StorageError.
Proof.
  intros a u. destruct C8_storage_failure_not_caught as [HR HS]. split.
  - exact (HR u _ ReactUi.P75 eq_refl eq_refl eq_refl).
  - by rewrite (HS 0 75%Z
      (Script.Page initialNodes (Script.build_nodeMap initialNodes) (Storage ∅ false))
      _ eq_refl eq_refl).
Defined.

(** C8 fails as stated: with a storage that rejects the write, choosing
    75 % for "basics" in the modal of react_app.js ends with the tree
    unmounted by the storage error and "basics" still at 0; in script.js
    the same choice ends with the storage error thrown out of the handler,
    the flag of "datastructures" not recomputed. *)
Lemma C8_counterexample :
  let a := App (computeUnlocks initialNodes) (Storage ∅ false) in
  let u := ReactUi.run (ReactUi.Ui a None true true true None)
             [ReactUi.NodeClick "basics"; ReactUi.SelectChange ReactUi.P75] in
  let pg := Script.Page (Script.computeUnlocks (Script.build_nodeMap initialNodes) initialNodes)
              (Script.build_nodeMap initialNodes) (Storage ∅ false) in
  ReactUi.crashed u = Some StorageError ∧
  progress <$> (nodes (ReactUi.model u) !! 0) = Some 0%Z ∧
  (Script.select_onchange 0 75 pg).2 = inl StorageError ∧
  progress <$> (Script.graph (Script.select_onchange 0 75 pg).1 !! 0) = Some 75%Z ∧
  unlocked <$> (Script.graph (Script.select_onchange 0 75 pg).1 !! 1) = Some (Some false).
Proof. repeat split; reflexivity. Qed.

(** C6 (amended): setting the progress of a prerequisite of T below 75
    makes T locked, and the flag of every topic that does not list that
    prerequisite is unchanged.  Every topic that lists it is locked, not
    only T. *)
Theorem C6_lowering_locks_dependents (ns : list node) (s : storage) (p : string) (v : Z) :
  writable s = true → (v < 75)%Z →
  let before := computeUnlocks ns in
  let after := nodes (updateProgress p v (App before s)).1 in
  (∀ k T, ns !! k = Some T → p ∈ prerequisites T →
     unlocked <$> (after !! k) = Some (Some false)) ∧
  (∀ k U, ns !! k = Some U → p ∉ prerequisites U →
     unlocked <$> (after !! k) = unlocked <$> (before !! k)).
Proof.
  intros Hw Hv before after.
  assert (∀ k n, ns !! k = Some n →
    unlocked <$> (after !! k) =
      Some (Some (forallb (dep_ok (update_one p v <$> before)) (prerequisites n)))) as Hafter.
  { intros k n Hk. unfold after. rewrite updateProgress_run by done. simpl.
    erewrite computeUnlocks_lookup.
    2:{ rewrite list_lookup_fmap. unfold before.
        by rewrite (computeUnlocks_lookup _ _ _ Hk). }
    simpl. by rewrite update_one_prerequisites. }
  split.
  - intros k T Hk Hp. rewrite (Hafter k T Hk). do 2 f_equal.
    apply not_true_is_false. intros Hall. rewrite forallb_forall in Hall.
    specialize (Hall p (proj1 (list_elem_of_In _ _) Hp)).
    by rewrite dep_ok_lowered in Hall.
  - intros k U Hk Hp. rewrite (Hafter k U Hk). unfold before.
    rewrite (computeUnlocks_lookup _ _ _ Hk). simpl. do 2 f_equal.
    apply every_ext_in. intros q Hq.
    rewrite dep_ok_other by (by intros ->). apply dep_ok_computeUnlocks.
Qed.

Lemma C6_lowering_locks_dependents_witness :
  unlocked <$> (nodes (updateProgress "basics" 50
                  (App (computeUnlocks initialNodes) (Storage ∅ true))).1 !! 1)
    = Some (Some false) ∧
  unlocked <$> (nodes (updateProgress "basics" 50
                  (App (computeUnlocks initialNodes) (Storage ∅ true))).1 !! 0)
    = unlocked <$> (computeUnlocks initialNodes !! 0).
Proof.
  destruct (C6_lowering_locks_dependents initialNodes (Storage ∅ true) "basics" 50
              eq_refl eq_refl) as [HT HU].
  split.
  - eapply HT; [reflexivity|]. apply list_elem_of_here.
  - eapply HU; [reflexivity|]. apply not_elem_of_nil.
Defined.

(** C6 fails as stated: with "basics" at 75, both "datastructures" and
    "algorithms" are unlocked; lowering "basics" to 50 locks
    "datastructures" and also "algorithms", a topic other than T. *)
Lemma C6_counterexample :
  let a := (updateProgress "basics" 75
              (App (computeUnlocks initialNodes) (Storage ∅ true))).1 in
  let a' := (updateProgress "basics" 50 a).1 in
  unlocked <$> (nodes a !! 1) = Some (Some true) ∧
  unlocked <$> (nodes a' !! 1) = Some (Some false) ∧
  unlocked <$> (nodes a !! 2) = Some (Some true) ∧
  unlocked <$> (nodes a' !! 2) = Some (Some false).
Proof. repeat split; reflexivity. Qed.

(** C3 (amended): the import takes its error branch when the text cannot
    be parsed as JSON and returns silently when the parsed value is not an
    array; in both cases the topic list and the storage are unchanged.  An
    entry without an [id] field is not an error: it matches no topic, the
    import is the same as without that entry, and an array without null
    entries is applied when the storage accepts the writes. *)
Theorem C3_import_rejections (a : app) :
  (∀ e, reader_onload (inl e) a = (a, Caught e)) ∧
  (∀ v, isArray v = None → reader_onload (inr v) a = (a, NotAnArray)) ∧
  (∀ arr, reader_onload (inr (JArr (filter (λ e, ¬ lacks_id e) arr))) a
            = reader_onload (inr (JArr arr)) a) ∧
  (∀ arr, Forall non_null arr → writable (store a) = true →
          (reader_onload (inr (JArr arr)) a).2 = Applied).
Proof.
  split; [done|]. split; [|split].
  - intros v Hv. unfold reader_onload. by rewrite Hv.
  - intros arr. apply import_drops_idless.
  - intros arr Harr Hw. by rewrite reader_onload_applied.
Qed.

Lemma C3_import_rejections_witness :
  reader_onload (inr (JObj [("id", JStr "basics")])) (App initialNodes (Storage ∅ true))
    = (App initialNodes (Storage ∅ true), NotAnArray) ∧
  (reader_onload (inr (JArr [JObj [("progress", JNum 50)]]))
     (App initialNodes (Storage ∅ true))).2 = Applied.
Proof.
  destruct (C3_import_rejections (App initialNodes (Storage ∅ true)))
    as (_ & Hnot & _ & Happlied).
  split.
  - by apply Hnot.
  - apply Happlied; [|done]. apply Forall_cons. split; [done|apply Forall_nil_2].
Defined.

(** C3 fails as stated: an array whose first entry has no [id] field is
    imported without error, and the progress of "basics" changes from 0 to
    100. *)
Lemma C3_counterexample :
  let a := App (computeUnlocks initialNodes) (Storage ∅ true) in
  let r := reader_onload
             (inr (JArr [ JObj [("progress", JNum 50)];
                          JObj [("id", JStr "basics"); ("progress", JNum 100)] ])) a in
  lacks_id (JObj [("progress", JNum 50)]) ∧
  r.2 = Applied ∧
  progress <$> (nodes a !! 0) = Some 0%Z ∧
  progress <$> (nodes r.1 !! 0) = Some 100%Z.
Proof. repeat split; reflexivity. Qed.

(** C4 (amended): for an array without null entries (in particular one
    whose entries all are objects with an [id]) and a storage that accepts
    the writes, the import ends without error and keeps the topic list's
    length and ids.  Each topic is decided by the first entry that carries
    its id: when the progress of that entry is a number, the topic takes it
    clamped to [0, 100], and the clamped value is what the storage holds;
    when it is not a number, the topic keeps its own progress, also when a
    later entry with the same id carries a number.  A topic whose id no
    entry carries keeps its progress.  An entry whose id is no topic's id
    has no effect (the import is the same without it), and so has an entry
    whose progress is not a number, unless an entry with the same id
    follows it. *)
Theorem C4_import_first_entry_decides (arr : list json) (a : app) :
  Forall non_null arr → writable (store a) = true →
  let r := reader_onload (inr (JArr arr)) a in
  r.2 = Applied ∧
  length (nodes r.1) = length (nodes a) ∧
  (∀ j e, arr !! j = Some e → (∀ n, n ∈ nodes a → ¬ has_id e (id n)) →
     reader_onload (inr (JArr (delete j arr))) a = r) ∧
  (∀ j e, arr !! j = Some e → progress_not_a_number e →
     (∀ s j' e', has_id e s → arr !! j' = Some e' → j < j' → ¬ has_id e' s) →
     reader_onload (inr (JArr (delete j arr))) a = r) ∧
  ∀ k n, nodes a !! k = Some n →
    ∃ n', nodes r.1 !! k = Some n' ∧ static_fields n' = static_fields n ∧
      ((∀ e, e ∈ arr → ¬ has_id e (id n)) → progress n' = progress n) ∧
      (∀ j e, arr !! j = Some e → has_id e (id n) →
         (∀ j' e', arr !! j' = Some e' → j' < j → ¬ has_id e' (id n)) →
         (∀ p, has_progress e p →
            progress n' = Z.max 0 (Z.min 100 p) ∧ (0 ≤ progress n' ≤ 100)%Z ∧
            ((0 ≤ p ≤ 100)%Z → progress n' = p) ∧
            items (store r.1) !! storage_key (id n) = Some (String_of (progress n'))) ∧
         (progress_not_a_number e → progress n' = progress n)).
Proof.
  intros Harr Hw r. split; [|split; [|split; [|split]]].
  - unfold r. by rewrite reader_onload_applied.
  - unfold r. rewrite reader_onload_applied by done. simpl.
    unfold computeUnlocks. by rewrite !length_fmap.
  - intros j e Hj Hunknown. apply reader_onload_ext. intros n Hn. unfold find_entry.
    apply (array_find_delete_false _ arr j e Hj). apply id_test_other.
    + eapply (proj1 (Forall_forall _ _) Harr), list_elem_of_lookup_2, Hj.
    + intros Hid. by apply (Hunknown n Hn), has_id_entry_id.
  - intros j e Hj Hnum Hlast. apply (import_drops_non_numeric arr a j e); [done..| |].
    + by apply progress_not_a_number_None.
    + intros s j' e' He Hj' Hlt He'.
      apply (Hlast s j' e'); [by apply has_id_entry_id|done..|by apply has_id_entry_id].
  - intros k n Hk. destruct (imported_lookup arr a k n Harr Hw Hk) as [b Hb].
    eexists. split; [exact Hb|]. simpl.
    split; [unfold apply_entry; by destruct (import_target arr n)|]. split.
    + intros Habsent. rewrite apply_entry_absent; [done|].
      intros e He Hid. by apply (Habsent e He), has_id_entry_id.
    + intros j e Hj He Hmin.
      assert (progress (apply_entry arr n) =
              match entry_progress e with Some p => clamp p | None => progress n end)
        as Hfirst.
      { apply (apply_entry_first arr n j e); [done|by apply has_id_entry_id|].
        intros j' e' Hj' Hlt He'. by apply (Hmin j' e' Hj' Hlt), has_id_entry_id. }
      split.
      * intros p Hp. apply has_progress_entry_progress in Hp as Hp'.
        rewrite Hp' in Hfirst. rewrite Hfirst. unfold clamp.
        split; [done|]. split; [lia|]. split; [lia|].
        unfold r. rewrite reader_onload_applied by done. simpl.
        rewrite persist_lookup.
        assert (first_entry arr (id n) = Some e) as ->.
        { apply first_entry_Some. exists j. split; [done|].
          split; [by apply has_id_entry_id|].
          intros j' e' Hj' Hlt He'. by apply (Hmin j' e' Hj' Hlt), has_id_entry_id. }
        simpl. rewrite Hp'. rewrite decide_True; [done|].
        apply list_elem_of_fmap. exists n. split; [done|].
        by eapply list_elem_of_lookup_2.
      * intros Hnum. apply progress_not_a_number_None in Hnum.
        by rewrite Hnum in Hfirst.
Qed.

Lemma C4_import_first_entry_decides_witness :
  let arr := [ JObj [("id", JStr "nonexistent"); ("progress", JNum 50)];
               JObj [("id", JStr "basics"); ("progress", JNum 150)];
               JObj [("id", JStr "algorithms"); ("progress", JStr "75")] ] in
  let a := App (computeUnlocks (update_one "algorithms" 25 <$> initialNodes))
               (Storage ∅ true) in
  let r := reader_onload (inr (JArr arr)) a in
  r.2 = Applied ∧
  (∃ n', nodes r.1 !! 0 = Some n' ∧ progress n' = 100%Z ∧
         items (store r.1) !! storage_key "basics" = Some (String_of (progress n'))) ∧
  (∃ n', nodes r.1 !! 2 = Some n' ∧ progress n' = 25%Z) ∧
  reader_onload (inr (JArr (delete 0 arr))) a = r.
Proof.
  intros arr a r.
  assert (Forall non_null arr) as Harr.
  { repeat (apply Forall_cons; split; [done|]). apply Forall_nil_2. }
  destruct (C4_import_first_entry_decides arr a Harr eq_refl)
    as (H1 & _ & Hunknown & _ & Htopic).
  split; [exact H1|]. split; [|split].
  - destruct (Htopic 0 _ eq_refl) as (n' & Hn' & _ & _ & Hfirst).
    destruct (Hfirst 1 _ eq_refl) as [Hnum _].
    + eexists. split; reflexivity.
    + intros [|j'] e' Hj' Hlt; [|lia]. injection Hj' as <-.
      intros (fields & [= <-] & Hid). discriminate Hid.
    + destruct (Hnum 150%Z) as (Hp & _ & _ & Hst); [eexists; split; reflexivity|].
      exists n'. split; [exact Hn'|]. split; [exact Hp|exact Hst].
  - destruct (Htopic 2 _ eq_refl) as (n' & Hn' & _ & _ & Hfirst).
    destruct (Hfirst 2 _ eq_refl) as [_ Hnot].
    + eexists. split; reflexivity.
    + intros [|[|j']] e' Hj' Hlt; [| |lia]; injection Hj' as <-;
        intros (fields & [= <-] & Hid); discriminate Hid.
    + exists n'. split; [exact Hn'|]. apply Hnot.
      intros p (fields & [= <-] & Hp). discriminate Hp.
  - apply (Hunknown 0 _ eq_refl). intros n Hn (fields & [= <-] & Hid).
    injection Hid as Hid. revert n Hn Hid.
    apply (proj1 (Forall_forall (λ n, "nonexistent" ≠ id n) _)).
    apply (bool_decide_unpack _). by vm_compute.
Defined.

(** C4 fails as stated: an entry whose progress is not a number is not
    simply dropped.  It is the first entry with the id "basics", so it
    decides the topic, and the entry behind it, whose progress is the
    number 50, is never looked at: "basics" stays at 0, where the array
    without the first entry sets it to 50. *)
Lemma C4_counterexample :
  let a := App (computeUnlocks initialNodes) (Storage ∅ true) in
  let e1 := JObj [("id", JStr "basics"); ("progress", JStr "75")] in
  let e2 := JObj [("id", JStr "basics"); ("progress", JNum 50)] in
  progress_not_a_number e1 ∧ has_id e2 "basics" ∧ has_progress e2 50 ∧
  (reader_onload (inr (JArr [e1; e2])) a).2 = Applied ∧
  progress <$> (nodes (reader_onload (inr (JArr [e1; e2])) a).1 !! 0) = Some 0%Z ∧
  progress <$> (nodes (reader_onload (inr (JArr [e2])) a).1 !! 0) = Some 50%Z.
Proof.
  split; [|split; [|split; [|repeat split; reflexivity]]].
  - intros p (fields & [= <-] & Hp). discriminate Hp.
  - eexists. split; reflexivity.
  - eexists. split; reflexivity.
Qed.

(** C10: an entry that repeats the id of an earlier entry has no effect:
    the import is the same as on the array without it.  A topic whose id is
    repeated takes the first entry with that id. *)
Theorem C10_first_duplicate_wins (arr : list json) (a : app) (j k : nat)
    (e1 e2 : json) (s : string) :
  j < k → arr !! j = Some e1 → arr !! k = Some e2 →
  entry_id e1 = Some s → entry_id e2 = Some s →
  reader_onload (inr (JArr (delete k arr))) a = reader_onload (inr (JArr arr)) a ∧
  (Forall non_null arr → writable (store a) = true →
   (∀ j' e', arr !! j' = Some e' → j' < j → entry_id e' ≠ Some s) →
   ∀ i n, nodes a !! i = Some n → id n = s →
     ∃ n', nodes (reader_onload (inr (JArr arr)) a).1 !! i = Some n' ∧
           progress n' = match entry_progress e1 with
                         | Some p => clamp p
                         | None => progress n
                         end).
Proof.
  intros Hjk Hj Hk He1 He2. split.
  - apply reader_onload_ext. intros n Hn. unfold find_entry.
    apply (array_find_delete_later _ arr j k e1 e2); [done..|].
    by rewrite (entry_id_get_prop _ _ He1), (entry_id_get_prop _ _ He2).
  - intros Harr Hw Hmin i n Hi <-.
    destruct (imported_lookup arr a i n Harr Hw Hi) as [b Hb].
    eexists. split; [exact Hb|]. simpl. by apply (apply_entry_first arr n j e1).
Qed.

Lemma C10_first_duplicate_wins_witness :
  let arr := [ JObj [("id", JStr "basics"); ("progress", JNum 25)];
               JObj [("id", JStr "basics"); ("progress", JNum 100)] ] in
  let a := App initialNodes (Storage ∅ true) in
  reader_onload (inr (JArr (delete 1 arr))) a = reader_onload (inr (JArr arr)) a ∧
  ∃ n', nodes (reader_onload (inr (JArr arr)) a).1 !! 0 = Some n' ∧ progress n' = 25%Z.
Proof.
  intros arr a.
  destruct (C10_first_duplicate_wins arr a 0 1 _ _ "basics"
              (Nat.lt_0_succ 0) eq_refl eq_refl eq_refl eq_refl) as [Hsame Hfirst].
  split; [exact Hsame|].
  destruct (Hfirst) with (i := 0) (n := Node "basics" "Programming Fundamentals"
      "Learn variables, control flow, functions and the building blocks of code."
      (Some []) 0 None) as (n' & Hn' & Hp); try done.
  - repeat (apply Forall_cons; split; [done|]). apply Forall_nil_2.
  - intros j' e' _ Hlt. lia.
  - by exists n'.
Defined.

(** C5: on a topic set of the data model (unique ids, every progress in
    [0, 100]) and with a storage that accepts the writes, importing the
    exported snapshot gives every topic the progress that the topic with
    its id had at the time of export, whatever the progress values are at
    the time of import. *)
Theorem C5_export_import_round_trip (ns cur : list node) (s : storage) :
  unique_ids ns → (∀ n, n ∈ ns → (0 ≤ progress n ≤ 100)%Z) → writable s = true →
  let r := reader_onload (inr (exportProgress ns)) (App cur s) in
  r.2 = Applied ∧
  (∀ k c n, cur !! k = Some c → n ∈ ns → id n = id c →
     progress <$> (nodes r.1 !! k) = Some (progress n)) ∧
  (cur = ns → progress <$> nodes r.1 = progress <$> ns).
Proof.
  intros Hnd Hrange Hw r.
  assert (∀ k c n, cur !! k = Some c → n ∈ ns → id n = id c →
            progress <$> (nodes r.1 !! k) = Some (progress n)) as Hrestore.
  { intros k c n Hk Hn Hid.
    destruct (imported_lookup (export_entry <$> ns) (App cur s) k c) as [b Hb];
      [apply export_non_null|done..|].
    unfold r, exportProgress. rewrite Hb. simpl. f_equal.
    rewrite (apply_entry_export ns c n) by done.
    symmetry. apply clamp_id_iff. by apply Hrange. }
  split; [|split; [exact Hrestore|]].
  - unfold r, exportProgress. rewrite reader_onload_applied; [done|apply export_non_null|done].
  - intros ->. apply list_eq. intros k. rewrite !list_lookup_fmap.
    destruct (ns !! k) as [n|] eqn:Hk.
    + apply (Hrestore k n n); [done| |done]. by eapply list_elem_of_lookup_2.
    + unfold r, exportProgress.
      rewrite reader_onload_applied; [|apply export_non_null|done]. simpl.
      unfold computeUnlocks. by rewrite !list_lookup_fmap, Hk.
Qed.

Lemma C5_export_import_round_trip_witness :
  let ns := nodes (updateProgress "basics" 75 (App initialNodes (Storage ∅ true))).1 in
  let r := reader_onload (inr (exportProgress ns)) (App ns (Storage ∅ true)) in
  r.2 = Applied ∧ progress <$> nodes r.1 = progress <$> ns.
Proof.
  intros ns r.
  assert (unique_ids ns) as Hnd.
  { unfold unique_ids. apply (bool_decide_unpack _). by vm_compute. }
  assert (∀ n, n ∈ ns → (0 ≤ progress n ≤ 100)%Z) as Hrange.
  { apply Forall_forall. apply (bool_decide_unpack _). by vm_compute. }
  destruct (C5_export_import_round_trip ns ns (Storage ∅ true) Hnd Hrange eq_refl)
    as (Happlied & _ & Hsame).
  split; [exact Happlied|by apply Hsame].
Defined.

(** * Runs on the built-in curriculum *)

(** "graphs" needs both "datastructures" and "algorithms". *)
Example graphs_needs_both :
  let a0 := App (computeUnlocks initialNodes) (Storage ∅ true) in
  let a1 := (updateProgress "datastructures" 100 a0).1 in
  let a2 := (updateProgress "algorithms" 50 a1).1 in
  let a3 := (updateProgress "algorithms" 75 a2).1 in
  unlocked <$> (nodes a2 !! 3) = Some (Some false) ∧
  unlocked <$> (nodes a3 !! 3) = Some (Some true).
Proof. split; reflexivity. Qed.

(** The round trip needs the range of the data model: a progress of 150,
    which the modal's list does not offer, is exported as 150 and comes
    back as 100. *)
Example round_trip_outside_range :
  let ns := update_one "basics" 150 <$> computeUnlocks initialNodes in
  let r := reader_onload (inr (exportProgress ns)) (App ns (Storage ∅ true)) in
  r.2 = Applied ∧ progress <$> (nodes r.1 !! 0) = Some 100%Z.
Proof. split; reflexivity. Qed.

(** Imported values are clamped; an unknown id changes nothing. *)
Example import_clamps :
  let a0 := App (computeUnlocks initialNodes) (Storage ∅ true) in
  let r := reader_onload
             (inr (JArr [ JObj [("id", JStr "basics"); ("progress", JNum 150)];
                          JObj [("id", JStr "algorithms"); ("progress", JNum (-10))];
                          JObj [("id", JStr "nonexistent"); ("progress", JNum 50)] ])) a0 in
  progress <$> nodes r.1 = [100; 0; 0; 0; 0]%Z ∧
  items (store r.1) !! "kpv-react-progress-basics" = Some "100" ∧
  items (store r.1) !! "kpv-react-progress-nonexistent" = None.
Proof. repeat split; reflexivity. Qed.

(** A null entry makes the [find] callback throw: the error branch is
    taken (and React unmounts the tree, see [import_type_error_iff]); the
    topic list is not replaced, but the writes made for the topics handled
    before the throw stay in the storage. *)
Example import_null_entry :
  let a0 := App (computeUnlocks initialNodes) (Storage ∅ true) in
  let r := reader_onload
             (inr (JArr [ JObj [("id", JStr "basics"); ("progress", JNum 100)]; JNull ])) a0 in
  r.2 = Caught TypeError ∧
  nodes r.1 = nodes a0 ∧
  items (store r.1) !! "kpv-react-progress-basics" = Some "100".
Proof. repeat split; reflexivity. Qed.

(** * Further properties of the code *)

(** ** [String(n)] and [parseInt(s, 10)] *)

Lemma digit_value_pretty_N_char (d : N) :
  (d < 10)%N → digit_value (pretty_N_char d) = Some (Z.of_N d).
Proof.
  intros Hd.
  assert (d = 0 ∨ d = 1 ∨ d = 2 ∨ d = 3 ∨ d = 4 ∨ d = 5 ∨ d = 6 ∨ d = 7 ∨ d = 8
          ∨ d = 9)%N as Hcases by lia.
  repeat (destruct Hcases as [->|Hcases]; [done|]). by subst.
Qed.

(** The digits that [pretty] puts in front of [s] are read back. *)
Lemma parse_digits_pretty_N_go (x : N) :
  (0 < x)%N →
  ∃ m, ∀ acc s,
    parse_digits acc (pretty_N_go x s)
      = parse_digits (Some (default 0 acc * m + Z.of_N x))%Z s.
Proof.
  induction (N.lt_wf_0 x) as [x _ IH]. intros Hx.
  assert (x `div` 10 < x)%N as Hlt by (by apply N.div_lt).
  assert (x `mod` 10 < 10)%N as Hmod by (by apply N.mod_lt).
  pose proof (N.div_mod x 10 ltac:(done)) as Hdm.
  destruct (decide (x `div` 10 = 0)%N) as [Hz|Hnz].
  - exists 10%Z. intros acc s. rewrite pretty_N_go_step, Hz, pretty_N_go_0 by done.
    simpl. rewrite digit_value_pretty_N_char by done.
    replace (10 * default 0 acc + Z.of_N (x `mod` 10))%Z
      with (default 0 acc * 10 + Z.of_N x)%Z by lia.
    done.
  - destruct (IH (x `div` 10)%N Hlt) as [m Hm]; [by apply N.neq_0_lt_0|].
    exists (10 * m)%Z. intros acc s. rewrite pretty_N_go_step, Hm by done.
    simpl. rewrite digit_value_pretty_N_char by done. simpl.
    assert (Z.of_N x = 10 * Z.of_N (x `div` 10) + Z.of_N (x `mod` 10))%Z as Hx'
      by (rewrite Hdm at 1; by rewrite N2Z.inj_add, N2Z.inj_mul).
    do 2 f_equal. rewrite Hx'. ring.
Qed.

Lemma pretty_N_go_head (x : N) s :
  (0 < x)%N → ∃ c rest d, pretty_N_go x s = String c rest ∧ digit_value c = Some d.
Proof.
  revert s. induction (N.lt_wf_0 x) as [x _ IH]. intros s Hx.
  assert (x `div` 10 < x)%N as Hlt by (by apply N.div_lt).
  assert (x `mod` 10 < 10)%N as Hmod by (by apply N.mod_lt).
  rewrite pretty_N_go_step by done.
  destruct (decide (x `div` 10 = 0)%N) as [Hz|Hnz].
  - rewrite Hz, pretty_N_go_0. eexists _, _, _. split; [done|].
    by apply digit_value_pretty_N_char.
  - apply IH; [done|by apply N.neq_0_lt_0].
Qed.

Lemma parseInt10_pretty_positive (x : positive) :
  parse_digits None (pretty (Npos x)) = Some (Zpos x) ∧
  ∃ c rest d, pretty (Npos x) = String c rest ∧ digit_value c = Some d.
Proof.
  unfold pretty, pretty_N. rewrite decide_False by done. split.
  - destruct (parse_digits_pretty_N_go (Npos x)) as [m Hm]; [done|].
    rewrite Hm. simpl. done.
  - by apply pretty_N_go_head.
Qed.

Lemma parseInt10_digit_head c rest d :
  digit_value c = Some d → parseInt10 (String c rest) = parse_digits None (String c rest).
Proof.
  destruct c as [[] [] [] [] [] [] [] []]; intros Hc; vm_compute in Hc;
    try discriminate Hc; reflexivity.
Qed.

(** What [String] writes for an integer, [parseInt] reads back. *)
Lemma parseInt10_String_of (z : Z) : parseInt10 (String_of z) = Some z.
Proof.
  destruct z as [|x|x]; [done| |].
  - destruct (parseInt10_pretty_positive x) as (Hval & c & rest & d & Hs & Hc).
    change (String_of (Z.pos x)) with (pretty (N.pos x)).
    rewrite Hs in Hval |- *. by rewrite (parseInt10_digit_head c rest d Hc).
  - destruct (parseInt10_pretty_positive x) as (Hval & _).
    change (parseInt10 (String_of (Z.neg x)))
      with (Z.opp <$> parse_digits None (pretty (N.pos x))).
    by rewrite Hval.
Qed.

(** ** The flags do not feed back into [computeUnlocks] *)

Lemma dep_ok_erase ns q : dep_ok (erase_flag <$> ns) q = dep_ok ns q.
Proof. by apply dep_ok_fmap. Qed.

Lemma computeUnlocks_erased ns :
  computeUnlocks ns =
    (λ n, set_unlocked n (forallb (dep_ok (erase_flag <$> ns)) (prerequisites n)))
      <$> (erase_flag <$> ns).
Proof.
  unfold computeUnlocks. rewrite <- list_fmap_compose. apply list_fmap_ext.
  intros k n Hk. rewrite unlock_one_every. simpl. unfold set_unlocked. simpl.
  do 2 f_equal. apply every_ext. intros q. symmetry. apply dep_ok_erase.
Qed.

Lemma computeUnlocks_erase ns1 ns2 :
  erase_flag <$> ns1 = erase_flag <$> ns2 → computeUnlocks ns1 = computeUnlocks ns2.
Proof. intros H. by rewrite (computeUnlocks_erased ns1), (computeUnlocks_erased ns2), H. Qed.

Lemma erase_computeUnlocks ns : erase_flag <$> computeUnlocks ns = erase_flag <$> ns.
Proof.
  unfold computeUnlocks. rewrite <- list_fmap_compose. apply list_fmap_ext.
  intros k n Hk. simpl. by rewrite unlock_one_every.
Qed.

Lemma computeUnlocks_consistent ns : consistent (computeUnlocks ns).
Proof. apply computeUnlocks_erase, erase_computeUnlocks. Qed.

(** A map that does not look at the flags can be applied before or after
    [computeUnlocks]. *)
Lemma computeUnlocks_fmap_computeUnlocks (f : node → node) ns :
  (∀ n b, erase_flag (f (set_unlocked n b)) = erase_flag (f n)) →
  computeUnlocks (f <$> computeUnlocks ns) = computeUnlocks (f <$> ns).
Proof.
  intros Hf. apply computeUnlocks_erase. unfold computeUnlocks.
  rewrite <- !list_fmap_compose. apply list_fmap_ext. intros k n Hk. simpl.
  by rewrite unlock_one_every, Hf.
Qed.

Lemma update_one_erase i v n b :
  erase_flag (update_one i v (set_unlocked n b)) = erase_flag (update_one i v n).
Proof. unfold update_one. simpl. by case_bool_decide. Qed.

Lemma apply_entry_erase arr n b :
  erase_flag (apply_entry arr (set_unlocked n b)) = erase_flag (apply_entry arr n).
Proof. unfold apply_entry, import_target. simpl. by destruct (_ ≫= _). Qed.

(** ** Loading the stored progress *)

Lemma load_one_shape s x y :
  ReactUi.load_one s x = Some y → y = set_progress x (progress y).
Proof.
  unfold ReactUi.load_one. destruct (items s !! _) as [stored|].
  - destruct (parseInt10 stored) as [z|]; simpl; [|done]. by intros [= <-].
  - intros [= <-]. by destruct x.
Qed.

Lemma load_one_id s x y : ReactUi.load_one s x = Some y → id y = id x.
Proof. intros H. by rewrite (load_one_shape s x y H). Qed.

(** If every topic of [init] reloads from [s'] as [f] of what it reloads
    from [s], so does the list. *)
Lemma load_transform s s' (f : node → node) init (raw : list node) :
  (∀ x y, x ∈ init → ReactUi.load_one s x = Some y →
          ReactUi.load_one s' x = Some (f y)) →
  list.mapM (ReactUi.load_one s) init = Some raw →
  list.mapM (ReactUi.load_one s') init = Some (f <$> raw).
Proof.
  intros Hf Hraw. apply list.mapM_Some in Hraw. apply list.mapM_Some.
  apply Forall2_fmap_r. induction Hraw as [|x y l k Hxy _ IH]; constructor.
  - apply Hf; [apply list_elem_of_here|done].
  - apply IH. intros x' y' Hx'. apply Hf. by apply list_elem_of_further.
Qed.

Lemma in_sync_raw init a :
  in_sync init a ↔
  ∃ raw, list.mapM (ReactUi.load_one (store a)) init = Some raw ∧
         nodes a = computeUnlocks raw.
Proof.
  unfold in_sync, ReactUi.load. rewrite fmap_Some. naive_solver.
Qed.

Lemma computeUnlocks_ids ns : id <$> computeUnlocks ns = id <$> ns.
Proof.
  unfold computeUnlocks. rewrite <- list_fmap_compose. apply list_fmap_ext.
  intros k n _. simpl. by rewrite unlock_one_every.
Qed.

Lemma mapM_cons_run {A B} (f : A → M B) x l s :
  mapM f (x :: l) s =
    match f x s with
    | (s1, inr y) =>
        match mapM f l s1 with
        | (s2, inr ys) => (s2, inr (y :: ys))
        | (s2, inl e) => (s2, inl e)
        end
    | (s1, inl e) => (s1, inl e)
    end.
Proof. done. Qed.

(** ** Persistence: what is stored is what a reload shows *)

Lemma load_consistent_static init s ns :
  ReactUi.load init s = Some ns →
  consistent ns ∧ static_fields <$> ns = static_fields <$> init.
Proof.
  unfold ReactUi.load. intros H. apply fmap_Some in H as (raw & Hraw & ->).
  apply list.mapM_Some in Hraw.
  split; [apply computeUnlocks_consistent|].
  induction Hraw as [|x y l k Hxy _ IH]; [done|].
  unfold computeUnlocks in *. rewrite !fmap_cons. f_equal.
  - rewrite unlock_one_every, (load_one_shape s x y Hxy). done.
  - rewrite <- IH, <- !list_fmap_compose. apply list_fmap_ext.
    intros j n _. simpl. by rewrite !unlock_one_every.
Qed.

Lemma update_preserves_sync init i v a :
  in_sync init a → in_sync init (updateProgress i v a).1.
Proof.
  intros Hsync. destruct (writable (store a)) eqn:Hw.
  2:{ by rewrite updateProgress_throws. }
  rewrite updateProgress_run by done.
  apply in_sync_raw in Hsync as (raw & Hraw & Hnodes). apply in_sync_raw. simpl.
  exists (update_one i v <$> raw). split.
  - apply (load_transform (store a)); [|done]. intros x y _ Hxy.
    unfold ReactUi.load_one. simpl. unfold update_one.
    rewrite (load_one_id _ _ _ Hxy). case_bool_decide as Hid.
    + rewrite Hid, lookup_insert_eq, parseInt10_String_of. simpl.
      by rewrite (load_one_shape _ _ _ Hxy).
    + rewrite lookup_insert_ne; [done|]. intros Hk. by apply react_key_inj in Hk.
  - rewrite Hnodes. apply computeUnlocks_fmap_computeUnlocks, update_one_erase.
Qed.

Lemma update_preserves_app_written init i v a :
  safe_integer v → app_written init (store a) →
  app_written init (store (updateProgress i v a).1).
Proof.
  intros Hv Hs. destruct (writable (store a)) eqn:Hw.
  2:{ by rewrite updateProgress_throws. }
  rewrite updateProgress_run by done. simpl. intros n stored Hn. simpl.
  destruct (decide (id n = i)) as [<-|Hne].
  - rewrite lookup_insert_eq. intros [= <-]. eauto.
  - rewrite lookup_insert_ne; [by apply Hs|]. intros Hk. by apply react_key_inj in Hk.
Qed.

(** A storage that holds what the handlers wrote is read without [NaN]. *)
Lemma load_total init s : app_written init s → is_Some (ReactUi.load init s).
Proof.
  intros Hs. unfold ReactUi.load. apply fmap_is_Some, list.mapM_is_Some_2, Forall_forall.
  intros n Hn. simpl. unfold ReactUi.load_one.
  destruct (items s !! storage_key (id n)) as [stored|] eqn:E; [|done].
  destruct (Hs n stored Hn E) as (z & _ & ->). by rewrite parseInt10_String_of.
Qed.

Lemma choice_value_safe c : safe_integer (ReactUi.choice_value c).
Proof. unfold safe_integer. destruct c; simpl; lia. Qed.

(** *** Which keys a handler writes *)

Lemma updateProgress_storage_frame i v a k :
  k ≠ storage_key i →
  items (store (updateProgress i v a).1) !! k = items (store a) !! k.
Proof.
  intros Hk. destruct (writable (store a)) eqn:Hw.
  - rewrite updateProgress_run by done. simpl. by rewrite lookup_insert_ne.
  - by rewrite updateProgress_throws.
Qed.

Lemma import_one_storage_frame arr n s k :
  k ≠ storage_key (id n) →
  items (import_one arr n s).1 !! k = items s !! k ∧
  writable (import_one arr n s).1 = writable s.
Proof.
  intros Hk. unfold import_one, mbind, M_bind, bind, lift, mret, M_ret, ret.
  destruct (find_entry arr n) as [e|[entry|]]; simpl; [done| |done].
  destruct (get_prop entry "progress") as [e|mp]; simpl; [done|].
  destruct (as_number mp) as [p|]; simpl; [|done].
  unfold setItem. destruct (writable s) eqn:Hw; simpl; [|done].
  by rewrite lookup_insert_ne.
Qed.

Lemma mapM_import_storage_frame arr ns k : ∀ s,
  (∀ n, n ∈ ns → k ≠ storage_key (id n)) →
  items (mapM (import_one arr) ns s).1 !! k = items s !! k.
Proof.
  induction ns as [|n ns IH]; intros s Hk; [done|].
  rewrite mapM_cons_run.
  destruct (import_one_storage_frame arr n s k) as [Hi _].
  { apply Hk, list_elem_of_here. }
  destruct (import_one arr n s) as [s1 [e|n1]]; simpl in *; [done|].
  rewrite <- Hi, <- (IH s1).
  - by destruct (mapM (import_one arr) ns s1) as [s2 [e|ns1]].
  - intros n' Hn'. by apply Hk, list_elem_of_further.
Qed.

Lemma reader_onload_storage_frame parsed a k :
  (∀ n, n ∈ nodes a → k ≠ storage_key (id n)) →
  items (store (reader_onload parsed a).1) !! k = items (store a) !! k.
Proof.
  intros Hk. destruct parsed as [e|v]; [done|]. simpl.
  destruct (isArray v) as [arr|]; [|done].
  unfold setNodes, import_updater, mbind, M_bind, bind.
  pose proof (mapM_import_storage_frame arr (nodes a) k (store a) Hk) as H.
  by destruct (mapM (import_one arr) (nodes a) (store a)) as [s1 [e|ns1]].
Qed.

(** X1: the initial topic list read from a storage that holds what the
    handlers wrote (under every topic's key, if anything, the text of a safe
    integer).  The load succeeds without [NaN]; the result has the flags of
    [computeUnlocks] and the static fields of the curriculum; a topic
    without a stored value keeps its default progress, and a topic with a
    stored value takes the integer whose text is stored, unclamped. *)
Theorem load_reads_stored_progress (init : list node) (s : storage) :
  app_written init s →
  ∃ ns, ReactUi.load init s = Some ns ∧
    consistent ns ∧
    static_fields <$> ns = static_fields <$> init ∧
    ∀ k n0, init !! k = Some n0 →
      ∃ n, ns !! k = Some n ∧
        match items s !! storage_key (id n0) with
        | Some stored => ∃ z, safe_integer z ∧ stored = String_of z ∧ progress n = z
        | None => progress n = progress n0
        end.
Proof.
  intros Hs. destruct (load_total init s Hs) as [ns H]. exists ns.
  destruct (load_consistent_static init s ns H) as [Hc Hst].
  split; [done|]. split; [done|]. split; [done|].
  unfold ReactUi.load in H. apply fmap_Some in H as (raw & Hraw & ->).
  apply list.mapM_Some in Hraw. intros k n0 Hk.
  destruct (Forall2_lookup_l _ _ _ _ _ Hraw Hk) as (y & Hy & Hxy).
  eexists. split; [by apply computeUnlocks_lookup|]. simpl.
  unfold ReactUi.load_one in Hxy.
  destruct (items s !! storage_key (id n0)) as [stored|] eqn:E.
  - destruct (Hs n0 stored (list_elem_of_lookup_2 _ _ _ Hk) E) as (z & Hz & ->).
    rewrite parseInt10_String_of in Hxy. simplify_eq/=. eauto.
  - by simplify_eq.
Qed.

Lemma load_reads_stored_progress_witness :
  let s := Storage (<["kpv-react-progress-basics" := "150"]> ∅) true in
  ∃ ns, ReactUi.load initialNodes s = Some ns ∧
        progress <$> ns = [150; 0; 0; 0; 0]%Z ∧
        unlocked <$> ns = [Some true; Some true; Some true; Some false; Some false].
Proof.
  intros s.
  assert (app_written initialNodes s) as Hs.
  { intros n stored Hn. revert stored. revert n Hn.
    apply (proj1 (Forall_forall
      (λ n, ∀ stored, items s !! storage_key (id n) = Some stored →
                      ∃ z, safe_integer z ∧ stored = String_of z) initialNodes)).
    repeat (apply Forall_cons; split;
            [intros stored E; vm_compute in E; try discriminate E|]).
    - injection E as <-. exists 150%Z. split; [unfold safe_integer; lia|reflexivity].
    - apply Forall_nil_2. }
  destruct (load_reads_stored_progress initialNodes s Hs) as (ns & Hload & _).
  exists ns. split; [exact Hload|].
  assert (ReactUi.load initialNodes s
          = Some (computeUnlocks (update_one "basics" 150 <$> initialNodes))) as Hval
    by (vm_compute; reflexivity).
  assert (ns = computeUnlocks (update_one "basics" 150 <$> initialNodes)) as ->
    by congruence.
  split; reflexivity.
Defined.

(** X2: [updateProgress] with a safe integer (where [String] and [parseInt]
    are exact) and a successful write keeps the storage and the memory in
    step: if the storage holds what the handlers wrote and a reload would
    have shown the topic list before the call, the same is true after the
    call.  It writes no key but the topic's own, which then holds
    [String(newProgress)]. *)
Theorem updateProgress_keeps_sync (init : list node) (i : string) (v : Z) (a : app) :
  persisted init a → safe_integer v → writable (store a) = true →
  persisted init (updateProgress i v a).1 ∧
  (∀ k, k ≠ storage_key i →
        items (store (updateProgress i v a).1) !! k = items (store a) !! k) ∧
  items (store (updateProgress i v a).1) !! storage_key i = Some (String_of v).
Proof.
  intros [Hs Hsync] Hv Hw. split; [|split].
  - split; [by apply update_preserves_app_written|by apply update_preserves_sync].
  - intros k Hk. by apply updateProgress_storage_frame.
  - rewrite updateProgress_run by done. simpl. apply lookup_insert_eq.
Qed.

Lemma updateProgress_keeps_sync_witness :
  persisted initialNodes
    (updateProgress "basics" 75 (App (computeUnlocks initialNodes) (Storage ∅ true))).1.
Proof.
  refine (proj1 (updateProgress_keeps_sync initialNodes "basics" 75
           (App (computeUnlocks initialNodes) (Storage ∅ true)) _ _ eq_refl)).
  - split; [|reflexivity]. intros n stored _ E. discriminate E.
  - unfold safe_integer. lia.
Defined.

(** ** What one handler can do to the topic list *)

Lemma import_one_result arr n s s' n' :
  import_one arr n s = (s', inr n') → imported n n'.
Proof.
  unfold import_one, mbind, M_bind, bind, lift, mret, M_ret, ret, imported.
  destruct (find_entry arr n) as [e|[entry|]]; simpl; [done| |by intros [= _ <-]; left].
  destruct (get_prop entry "progress") as [e|mp]; simpl; [done|].
  destruct (as_number mp) as [p|]; simpl; [|by intros [= _ <-]; left].
  destruct (setItem _ _ s) as [s1 [e|[]]]; [done|]. intros [= _ <-]. eauto.
Qed.

Lemma mapM_import_result arr (ns : list node) : ∀ s s' ns',
  mapM (import_one arr) ns s = (s', inr ns') → Forall2 imported ns ns'.
Proof.
  induction ns as [|n ns IH]; intros s s' ns'.
  - intros [= _ <-]. constructor.
  - rewrite mapM_cons_run.
    destruct (import_one arr n s) as [s1 [e|n1]] eqn:E1; [done|].
    destruct (mapM (import_one arr) ns s1) as [s2 [e|ns1]] eqn:E2; [done|].
    intros [= _ <-]. constructor; [by eapply import_one_result|by eapply IH].
Qed.

Lemma reader_onload_nodes parsed a :
  nodes (reader_onload parsed a).1 = nodes a ∨
  ∃ updated, Forall2 imported (nodes a) updated ∧
             nodes (reader_onload parsed a).1 = computeUnlocks updated.
Proof.
  destruct parsed as [e|v]; [by left|]. simpl.
  destruct (isArray v) as [arr|]; [|by left].
  unfold setNodes, import_updater, mbind, M_bind, bind.
  destruct (mapM (import_one arr) (nodes a) (store a)) as [s1 [e|ns1]] eqn:E;
    simpl; [by left|].
  right. exists ns1. split; [by eapply mapM_import_result|done].
Qed.

Lemma updateProgress_nodes i v a :
  nodes (updateProgress i v a).1 = nodes a ∨
  nodes (updateProgress i v a).1 = computeUnlocks (update_one i v <$> nodes a).
Proof.
  destruct (writable (store a)) eqn:Hw.
  - right. by rewrite updateProgress_run.
  - left. by rewrite updateProgress_throws.
Qed.

Lemma static_fields_computeUnlocks ns :
  static_fields <$> computeUnlocks ns = static_fields <$> ns.
Proof.
  unfold computeUnlocks. rewrite <- list_fmap_compose. apply list_fmap_ext.
  intros k n _. simpl. by rewrite unlock_one_every.
Qed.

Lemma static_fields_imported ns ns' :
  Forall2 imported ns ns' → static_fields <$> ns' = static_fields <$> ns.
Proof.
  induction 1 as [|n n' l l' Hn _ IH]; [done|]. rewrite !fmap_cons, IH. f_equal.
  by destruct Hn as [->|[p ->]].
Qed.

Lemma in_range_computeUnlocks ns : in_range ns → in_range (computeUnlocks ns).
Proof.
  unfold in_range, computeUnlocks. intros H. apply Forall_fmap.
  eapply Forall_impl; [exact H|]. intros n Hn. simpl. by rewrite unlock_one_every.
Qed.

Lemma clamp_in_range z : (0 ≤ clamp z ≤ 100)%Z.
Proof. unfold clamp. lia. Qed.

Lemma choice_value_in_range c : (0 ≤ ReactUi.choice_value c ≤ 100)%Z.
Proof. destruct c; simpl; lia. Qed.

(** A property of the application state that the two state-changing
    handlers keep is kept by every run of the component. *)
Lemma handle_invariant (P : app → Prop) (Q : ReactUi.event → Prop) u ev :
  (∀ a i c, P a → P (updateProgress i (ReactUi.choice_value c) a).1) →
  (∀ a parsed, Q (ReactUi.FileLoaded parsed) → P a → P (reader_onload parsed a).1) →
  Q ev → P (ReactUi.model u) → P (ReactUi.model (ReactUi.handle u ev)).
Proof.
  intros Hupd Himp Hev HP. destruct ev; simpl; try done.
  - unfold ReactUi.node_click. destruct (find_node _ _) as [orig|]; [|done].
    destruct (unlocked orig) as [[]|]; [|done..]. by destruct (ReactUi.Modal orig).
  - unfold ReactUi.select_onChange. destruct (ReactUi.selectedNode u) as [sel|]; [|done].
    specialize (Hupd (ReactUi.model u) (id sel) c HP).
    by destruct (updateProgress _ _ _) as [a' [e|[]]].
  - unfold ReactUi.file_loaded. specialize (Himp (ReactUi.model u) parsed Hev HP).
    destruct parsed as [e|v];
      destruct (reader_onload _ (ReactUi.model u)) as [a' []]; done.
Qed.

Lemma run_invariant (P : app → Prop) (Q : ReactUi.event → Prop) evs : ∀ u,
  (∀ a i c, P a → P (updateProgress i (ReactUi.choice_value c) a).1) →
  (∀ a parsed, Q (ReactUi.FileLoaded parsed) → P a → P (reader_onload parsed a).1) →
  Forall Q evs → P (ReactUi.model u) → P (ReactUi.model (ReactUi.run u evs)).
Proof.
  induction evs as [|ev evs IH]; intros u Hupd Himp HQ HP; [done|].
  apply Forall_cons in HQ as [Hev HQ]. unfold ReactUi.run. simpl.
  apply IH; [done..|]. unfold ReactUi.step.
  destruct (ReactUi.crashed u); [done|]. by apply (handle_invariant P Q).
Qed.

(** ** Every state the component can reach *)

(** X4: in every state the React component reaches after it is mounted,
    the flags are the ones [computeUnlocks] gives for the current progress
    values (no stale flag), and the ids, titles, descriptions and
    prerequisite lists are those of the static curriculum, in the same
    order. *)
Theorem reachable_flags_and_curriculum (init : list node) (s : storage)
    (u0 : ReactUi.ui) (evs : list ReactUi.event) :
  ReactUi.mount init s = Some u0 →
  consistent (nodes (ReactUi.model (ReactUi.run u0 evs))) ∧
  static_fields <$> nodes (ReactUi.model (ReactUi.run u0 evs)) = static_fields <$> init.
Proof.
  intros Hmount. unfold ReactUi.mount in Hmount.
  destruct (ReactUi.load init s) as [ns|] eqn:Hload; simplify_eq/=.
  destruct (load_consistent_static init s ns Hload) as [Hc Hs].
  apply (run_invariant
           (λ a, consistent (nodes a) ∧ static_fields <$> nodes a = static_fields <$> init)
           (λ _, True)).
  - intros a i c [Hca Hsa]. destruct (updateProgress_nodes i (ReactUi.choice_value c) a)
      as [->| ->]; [done|]. split; [apply computeUnlocks_consistent|].
    rewrite static_fields_computeUnlocks, <- Hsa, <- list_fmap_compose.
    apply list_fmap_ext. intros k n _. simpl. unfold update_one. by case_bool_decide.
  - intros a parsed _ [Hca Hsa]. destruct (reader_onload_nodes parsed a)
      as [->|(updated & Himp & ->)]; [done|]. split; [apply computeUnlocks_consistent|].
    by rewrite static_fields_computeUnlocks, (static_fields_imported _ _ Himp).
  - by apply Forall_true.
  - done.
Qed.

Lemma reachable_flags_and_curriculum_witness :
  consistent (nodes (ReactUi.model
    (ReactUi.run
       (ReactUi.Ui (App (computeUnlocks initialNodes) (Storage ∅ true)) None true true true
                  None)
       [ReactUi.NodeClick "basics"; ReactUi.SelectChange ReactUi.P75]))).
Proof.
  refine (proj1 (reachable_flags_and_curriculum initialNodes (Storage ∅ true)
    (ReactUi.Ui (App (computeUnlocks initialNodes) (Storage ∅ true)) None true true true
                  None)
    [ReactUi.NodeClick "basics"; ReactUi.SelectChange ReactUi.P75] _)).
  reflexivity.
Defined.

(** X5: the handlers never take a progress value out of [0, 100]: the
    modal offers 0, 25, 50, 75 and 100 and the import clamps, so when the
    progress values are in range, they are in range after every run. *)
Theorem reachable_progress_in_range (u0 : ReactUi.ui) (evs : list ReactUi.event) :
  in_range (nodes (ReactUi.model u0)) →
  in_range (nodes (ReactUi.model (ReactUi.run u0 evs))).
Proof.
  apply (run_invariant (λ a, in_range (nodes a)) (λ _, True)).
  - intros a i c Ha. destruct (updateProgress_nodes i (ReactUi.choice_value c) a)
      as [->| ->]; [done|]. apply in_range_computeUnlocks. unfold in_range in *.
    apply Forall_fmap. eapply Forall_impl; [exact Ha|]. intros n Hn. simpl.
    unfold update_one. case_bool_decide; [|done]. simpl. apply choice_value_in_range.
  - intros a parsed _ Ha. destruct (reader_onload_nodes parsed a)
      as [->|(updated & Himp & ->)]; [done|]. apply in_range_computeUnlocks.
    unfold in_range in *. clear -Ha Himp.
    induction Himp as [|n n' l l' Hn _ IH]; [constructor|].
    apply Forall_cons in Ha as [Hn0 Hl]. constructor; [|by apply IH].
    destruct Hn as [->|[p ->]]; [done|]. simpl. apply clamp_in_range.
  - by apply Forall_true.
Qed.

Lemma reachable_progress_in_range_witness :
  in_range (nodes (ReactUi.model
    (ReactUi.run (ReactUi.Ui (App (computeUnlocks initialNodes) (Storage ∅ true))
                    None true true true None)
       [ReactUi.NodeClick "basics"; ReactUi.SelectChange ReactUi.P100]))).
Proof.
  apply reachable_progress_in_range. apply (bool_decide_unpack _). by vm_compute.
Defined.

(** X6: a change made through the modal survives a reload.  When the
    component is mounted on a storage that accepts writes and holds what
    the handlers wrote, the mount succeeds, and after every run of clicks,
    modal choices, modal closings and filter toggles the storage still
    holds what the handlers wrote and reloading the page gives the topic
    list in memory, progress and flags.  (A file import is left out: it can
    bring in a number with a fractional part, which [parseInt] does not
    read back.) *)
Theorem reachable_in_sync (init : list node) (s : storage) (evs : list ReactUi.event) :
  app_written init s → writable s = true → Forall user_event evs →
  ∃ u0, ReactUi.mount init s = Some u0 ∧
        persisted init (ReactUi.model (ReactUi.run u0 evs)).
Proof.
  intros Hs Hw Hevs. destruct (load_total init s Hs) as [ns Hload].
  unfold ReactUi.mount. rewrite Hload. simpl. eexists. split; [done|].
  refine (proj2 (run_invariant
           (λ a, writable (store a) = true ∧ persisted init a) user_event evs _ _ _ Hevs _)).
  - intros a i c [Ha [Hsa Hsync]]. split; [by rewrite updateProgress_run|]. split.
    + apply update_preserves_app_written; [apply choice_value_safe|done].
    + by apply update_preserves_sync.
  - intros a parsed [].
  - done.
Qed.

Lemma reachable_in_sync_witness :
  ∃ u0, ReactUi.mount initialNodes (Storage ∅ true) = Some u0 ∧
        persisted initialNodes (ReactUi.model
          (ReactUi.run u0 [ReactUi.NodeClick "basics"; ReactUi.SelectChange ReactUi.P75])).
Proof.
  refine (reachable_in_sync initialNodes (Storage ∅ true)
    [ReactUi.NodeClick "basics"; ReactUi.SelectChange ReactUi.P75] _ eq_refl _).
  - intros n stored _ E. discriminate E.
  - repeat (apply Forall_cons; split; [exact I|]). apply Forall_nil_2.
Defined.

(** The topic shown in the modal is a topic of the current list that is
    unlocked; user events keep it so. *)
Lemma handle_selected u ev :
  user_event ev →
  (∀ n, ReactUi.selectedNode u = Some n →
        n ∈ nodes (ReactUi.model u) ∧ unlocked n = Some true) →
  ∀ n, ReactUi.selectedNode (ReactUi.handle u ev) = Some n →
       n ∈ nodes (ReactUi.model (ReactUi.handle u ev)) ∧ unlocked n = Some true.
Proof.
  intros Hev Hu. destruct ev; simpl; try done.
  - unfold ReactUi.node_click. destruct (find_node _ _) as [orig|] eqn:E; [|done].
    destruct (unlocked orig) as [[]|] eqn:Eo; [|done..].
    apply find_node_Some in E as (j & Hj & _).
    destruct (ReactUi.Modal orig); simpl; intros n [= <-];
      (split; [by eapply list_elem_of_lookup_2|done]).
  - unfold ReactUi.select_onChange. destruct (ReactUi.selectedNode u) as [sel|] eqn:E.
    + by destruct (updateProgress _ _ _) as [a' [e|[]]].
    + intros n Hn. by rewrite E in Hn.
Qed.

(** X7: the modal opens only on an unlocked topic.  With no modal open, a
    click on a locked or unknown topic followed by a choice in the modal's
    list changes nothing; a click on an unlocked topic (one that has a
    dependency list, which [Modal] reads) followed by a choice sets that
    topic's progress to the chosen value, recomputes the flags and closes
    the modal, when the storage accepts the write.  As long as no file is
    imported, the topic shown in the modal is a topic of the current list
    whose flag is true. *)
Theorem modal_only_for_unlocked (u : ReactUi.ui) :
  ReactUi.crashed u = None → ReactUi.selectedNode u = None →
  (∀ d c, (∀ orig, find_node (nodes (ReactUi.model u)) d = Some orig →
                   unlocked orig ≠ Some true) →
          ReactUi.run u [ReactUi.NodeClick d; ReactUi.SelectChange c] = u) ∧
  (∀ d c orig, find_node (nodes (ReactUi.model u)) d = Some orig →
     unlocked orig = Some true → is_Some (dependencies orig) →
     writable (store (ReactUi.model u)) = true →
     let u' := ReactUi.run u [ReactUi.NodeClick d; ReactUi.SelectChange c] in
     ReactUi.selectedNode u' = None ∧ ReactUi.crashed u' = None ∧
     nodes (ReactUi.model u')
       = computeUnlocks (update_one d (ReactUi.choice_value c) <$> nodes (ReactUi.model u))) ∧
  (∀ evs n, Forall user_event evs →
     ReactUi.selectedNode (ReactUi.run u evs) = Some n →
     n ∈ nodes (ReactUi.model (ReactUi.run u evs)) ∧ unlocked n = Some true).
Proof.
  intros Hc Hsel. split; [|split].
  - intros d c Hlocked.
    assert (ReactUi.step u (ReactUi.SelectChange c) = u) as Hsame.
    { unfold ReactUi.step. rewrite Hc. simpl. unfold ReactUi.select_onChange.
      by rewrite Hsel. }
    assert (ReactUi.step u (ReactUi.NodeClick d) = u) as Hclick.
    { unfold ReactUi.step. rewrite Hc. simpl. unfold ReactUi.node_click.
      destruct (find_node _ d) as [orig|] eqn:E; [|done].
      specialize (Hlocked orig eq_refl). by destruct (unlocked orig) as [[]|]. }
    unfold ReactUi.run. cbn [foldl]. by rewrite Hclick, Hsame.
  - intros d c orig Hfind Hunl [deps Hdeps] Hw u'.
    assert (ReactUi.step u (ReactUi.NodeClick d)
            = ReactUi.Ui (ReactUi.model u) (Some orig) (ReactUi.showActive u)
                (ReactUi.showCompleted u) (ReactUi.showDependencies u) None) as Hclick.
    { unfold ReactUi.step. rewrite Hc. simpl. unfold ReactUi.node_click.
      rewrite Hfind, Hunl. unfold ReactUi.Modal. by rewrite Hdeps, Hc. }
    unfold u', ReactUi.run. cbn [foldl]. rewrite Hclick.
    unfold ReactUi.step. simpl. unfold ReactUi.select_onChange. simpl.
    rewrite updateProgress_run by done. simpl.
    apply find_node_Some in Hfind as (j & _ & Hid & _). by rewrite Hid.
  - assert (∀ evs v,
              (∀ n, ReactUi.selectedNode v = Some n →
                    n ∈ nodes (ReactUi.model v) ∧ unlocked n = Some true) →
              Forall user_event evs →
              ∀ n, ReactUi.selectedNode (ReactUi.run v evs) = Some n →
                   n ∈ nodes (ReactUi.model (ReactUi.run v evs)) ∧ unlocked n = Some true)
      as Hrun.
    { induction evs as [|ev evs IH]; intros v Hv Hevs; [done|].
      apply Forall_cons in Hevs as [Hev Hevs].
      unfold ReactUi.run. simpl. apply IH; [|done]. unfold ReactUi.step.
      destruct (ReactUi.crashed v); [done|]. by apply handle_selected. }
    intros evs n Hevs. apply Hrun; [|done]. intros m. by rewrite Hsel.
Qed.

Lemma modal_only_for_unlocked_witness :
  let u := ReactUi.Ui (App (computeUnlocks initialNodes) (Storage ∅ true))
             None true true true None in
  ReactUi.run u [ReactUi.NodeClick "graphs"; ReactUi.SelectChange ReactUi.P100] = u ∧
  nodes (ReactUi.model
           (ReactUi.run u [ReactUi.NodeClick "basics"; ReactUi.SelectChange ReactUi.P75]))
    = computeUnlocks (update_one "basics" 75 <$> computeUnlocks initialNodes).
Proof.
  intros u. destruct (modal_only_for_unlocked u eq_refl eq_refl) as (Hlocked & Hopen & _).
  split.
  - apply Hlocked. intros orig Hfind. vm_compute in Hfind. by injection Hfind as <-.
  - refine (proj2 (proj2 (Hopen "basics" ReactUi.P75 _ eq_refl eq_refl _ eq_refl))).
    by eexists.
Defined.

(** With a file import between the click and the choice, the topic in the
    modal can be locked by the time the choice is made: the modal keeps the
    object it was opened with.  "datastructures" is opened while "basics"
    is at 75, the import sets "basics" to 0, and the choice still sets
    "datastructures" to 100. *)
Example modal_stale_after_import :
  let a := App (computeUnlocks (update_one "basics" 75 <$> initialNodes)) (Storage ∅ true) in
  let u := ReactUi.run (ReactUi.Ui a None true true true None)
             [ ReactUi.NodeClick "datastructures";
               ReactUi.FileLoaded
                 (inr (JArr [JObj [("id", JStr "basics"); ("progress", JNum 0)]]));
               ReactUi.SelectChange ReactUi.P100 ] in
  (progress <$> nodes (ReactUi.model u) = [0; 100; 0; 0; 0]%Z) ∧
  unlocked <$> (nodes (ReactUi.model u) !! 1) = Some (Some false).
Proof. split; reflexivity. Qed.

(** ** Storage namespaces *)

(** X8: the two implementations keep their values under different keys:
    no key of react_app.js is a key of script.js, each key belongs to one
    topic id, and no handler of one implementation changes a value stored
    by the other. *)
Theorem storage_namespaces_disjoint :
  (∀ i j, ReactApp.storage_key i ≠ Script.storage_key j) ∧
  (∀ i j, ReactApp.storage_key i = ReactApp.storage_key j → i = j) ∧
  (∀ i j, Script.storage_key i = Script.storage_key j → i = j) ∧
  (∀ i v a j, items (store (updateProgress i v a).1) !! Script.storage_key j
              = items (store a) !! Script.storage_key j) ∧
  (∀ parsed a j, items (store (reader_onload parsed a).1) !! Script.storage_key j
                 = items (store a) !! Script.storage_key j) ∧
  (∀ ref v pg j,
     items (Script.local (Script.select_onchange ref v pg).1) !! ReactApp.storage_key j
     = items (Script.local pg) !! ReactApp.storage_key j).
Proof.
  split; [apply keys_disjoint|]. split; [apply react_key_inj|].
  split; [apply script_key_inj|]. split; [|split].
  - intros i v a j. apply updateProgress_storage_frame.
    intros H. symmetry in H. by apply keys_disjoint in H.
  - intros parsed a j. apply reader_onload_storage_frame.
    intros n _ H. symmetry in H. by apply keys_disjoint in H.
  - intros ref v pg j. unfold Script.select_onchange, Script.saveProgress, setItem.
    destruct (Script.graph pg !! ref) as [n|]; [|done]. simpl.
    destruct (writable (Script.local pg)); simpl; [|done].
    apply lookup_insert_ne. intros H. symmetry in H. by apply keys_disjoint in H.
Qed.

(** ** An import into a storage that rejects writes *)

(** The number an array assigns to a topic, in terms of the entries. *)
Lemma import_target_Some arr n p :
  import_target arr n = Some p ↔
  ∃ j e, arr !! j = Some e ∧ has_id e (id n) ∧
         (∀ j' e', arr !! j' = Some e' → j' < j → ¬ has_id e' (id n)) ∧
         has_progress e p.
Proof.
  unfold import_target. split.
  - destruct (first_entry arr (id n)) as [e|] eqn:E; [|done]. simpl. intros Hp.
    apply first_entry_Some in E as (j & Hj & He & Hmin). exists j, e.
    split; [done|]. split; [by apply has_id_entry_id|]. split.
    + intros j' e' Hj' Hlt He'. by apply (Hmin j' e' Hj' Hlt), has_id_entry_id.
    + by apply has_progress_entry_progress.
  - intros (j & e & Hj & He & Hmin & Hp).
    rewrite (proj2 (first_entry_Some arr (id n) e)).
    + simpl. by apply has_progress_entry_progress.
    + exists j. split; [done|]. split; [by apply has_id_entry_id|].
      intros j' e' Hj' Hlt He'. by apply (Hmin j' e' Hj' Hlt), has_id_entry_id.
Qed.

Lemma mapM_import_rejected arr ns s :
  Forall non_null arr → writable s = false →
  mapM (import_one arr) ns s =
    (s, if decide (Exists (λ n, is_Some (import_target arr n)) ns)
        then inl StorageError else inr ns).
Proof.
  intros Harr Hw. induction ns as [|n ns IH].
  - cbn [mapM]. case_decide as Hex; [by apply Exists_nil in Hex|done].
  - rewrite mapM_cons_run, import_one_total by done.
    destruct (import_target arr n) as [p|] eqn:E.
    + unfold mbind, M_bind, bind. rewrite setItem_unwritable by done.
      rewrite decide_True; [done|]. apply Exists_cons. left. by rewrite E.
    + rewrite IH. case_decide as Hex.
      * rewrite decide_True; [done|]. apply Exists_cons. by right.
      * rewrite decide_False; [done|]. intros [Hn|Hn]%Exists_cons; [|done].
        rewrite E in Hn. by destruct Hn.
Qed.

(** X9: an import into a storage that rejects writes (array without null
    entries).  No stored value changes.  If the array gives some topic a
    number (the first entry with the topic's id has a numeric progress), the
    updater throws on the first write: the import ends in its [catch] branch
    with the storage error and React unmounts the component tree.  If it
    gives no topic a number there is nothing to write: the import is
    applied and only recomputes the flags. *)
Theorem import_into_rejecting_storage (arr : list json) (u : ReactUi.ui) :
  ReactUi.crashed u = None → Forall non_null arr →
  writable (store (ReactUi.model u)) = false →
  let a := ReactUi.model u in
  let u' := ReactUi.step u (ReactUi.FileLoaded (inr (JArr arr))) in
  store (ReactUi.model u') = store a ∧
  ((∃ n j e p, n ∈ nodes a ∧ arr !! j = Some e ∧ has_id e (id n) ∧
               (∀ j' e', arr !! j' = Some e' → j' < j → ¬ has_id e' (id n)) ∧
               has_progress e p) →
   (reader_onload (inr (JArr arr)) a).2 = Caught StorageError ∧
   ReactUi.crashed u' = Some StorageError ∧ nodes (ReactUi.model u') = nodes a) ∧
  ((∀ n j e, n ∈ nodes a → arr !! j = Some e → has_id e (id n) →
             (∀ j' e', arr !! j' = Some e' → j' < j → ¬ has_id e' (id n)) →
             progress_not_a_number e) →
   (reader_onload (inr (JArr arr)) a).2 = Applied ∧
   ReactUi.crashed u' = None ∧ nodes (ReactUi.model u') = computeUnlocks (nodes a)).
Proof.
  intros Hc Harr Hw a u'. unfold u', ReactUi.step. rewrite Hc. simpl.
  unfold ReactUi.file_loaded, reader_onload, setNodes, import_updater. simpl.
  unfold mbind, M_bind, bind. fold a. rewrite (mapM_import_rejected arr) by done.
  case_decide as Hex; simpl.
  - split; [done|]. split; [done|]. intros Hnone. exfalso.
    apply Exists_exists in Hex as (n & Hn & [p Hp]).
    apply import_target_Some in Hp as (j & e & Hj & He & Hmin & Hp).
    by apply (Hnone n j e Hn Hj He Hmin p).
  - split; [done|]. split; [|by rewrite Hc]. intros (n & j & e & p & Hn & Hj & He & Hmin & Hp).
    exfalso. apply Hex, Exists_exists. exists n. split; [done|]. exists p.
    apply import_target_Some. eauto 10.
Qed.

Lemma import_into_rejecting_storage_witness :
  let a := App (computeUnlocks initialNodes) (Storage ∅ false) in
  let u := ReactUi.Ui a None true true true None in
  let u' := ReactUi.step u (ReactUi.FileLoaded
              (inr (JArr [JObj [("id", JStr "basics"); ("progress", JNum 100)]]))) in
  ReactUi.crashed u' = Some StorageError ∧ nodes (ReactUi.model u') = nodes a.
Proof.
  intros a u u'.
  assert (Forall non_null [JObj [("id", JStr "basics"); ("progress", JNum 100)]]) as Harr.
  { apply Forall_cons. split; [done|apply Forall_nil_2]. }
  destruct (import_into_rejecting_storage _ u eq_refl Harr eq_refl) as (_ & Hthrow & _).
  refine (proj2 (Hthrow _)).
  eexists _, 0, _, 100%Z. split; [apply list_elem_of_here|]. split; [reflexivity|].
  split; [eexists; split; reflexivity|]. split; [intros j' e' _ Hlt; lia|].
  eexists; split; reflexivity.
Defined.

(** ** How the state-changing handlers compose *)

Lemma update_one_twice i v w n : update_one i w (update_one i v n) = update_one i w n.
Proof.
  destruct (decide (id n = i)) as [H|H].
  - rewrite (update_one_same i v n H). by rewrite !update_one_same.
  - by rewrite (update_one_other i v n H).
Qed.

Lemma update_one_commute i j v w n :
  i ≠ j → update_one i v (update_one j w n) = update_one j w (update_one i v n).
Proof.
  intros Hij. destruct (decide (id n = i)) as [Hi|Hi], (decide (id n = j)) as [Hj|Hj].
  - congruence.
  - rewrite (update_one_other j w n Hj), (update_one_same i v n Hi).
    by rewrite update_one_other.
  - rewrite (update_one_other i v n Hi), (update_one_same j w n Hj).
    by rewrite update_one_other.
  - by rewrite (update_one_other j w n Hj), !(update_one_other i v n Hi),
      (update_one_other j w n Hj).
Qed.

(** X10: two calls of [updateProgress] on a writable storage.  For the same
    id the second call wins: the result is that of the second call alone.
    For different ids the order of the two calls does not matter. *)
Theorem updateProgress_composition (a : app) (i j : string) (v w : Z) :
  writable (store a) = true →
  updateProgress i w (updateProgress i v a).1 = updateProgress i w a ∧
  (i ≠ j →
   updateProgress i v (updateProgress j w a).1
   = updateProgress j w (updateProgress i v a).1).
Proof.
  intros Hw. split.
  - rewrite (updateProgress_run i v a Hw). rewrite !updateProgress_run by done. simpl.
    rewrite insert_insert_eq. do 2 f_equal.
    rewrite (computeUnlocks_fmap_computeUnlocks _ _ (update_one_erase i w)).
    rewrite <- list_fmap_compose. f_equal. apply list_fmap_ext.
    intros k n _. apply update_one_twice.
  - intros Hij. rewrite (updateProgress_run i v a Hw), (updateProgress_run j w a Hw).
    rewrite !updateProgress_run by done. simpl. f_equal. f_equal.
    + rewrite (computeUnlocks_fmap_computeUnlocks _ _ (update_one_erase i v)).
      rewrite (computeUnlocks_fmap_computeUnlocks _ _ (update_one_erase j w)).
      rewrite <- !list_fmap_compose. f_equal. apply list_fmap_ext.
      intros k n _. by apply update_one_commute.
    + f_equal. apply insert_insert_ne. intros Hk. by apply react_key_inj in Hk.
Qed.

Lemma updateProgress_composition_witness :
  updateProgress "basics" 50
    (updateProgress "basics" 75 (App (computeUnlocks initialNodes) (Storage ∅ true))).1
  = updateProgress "basics" 50 (App (computeUnlocks initialNodes) (Storage ∅ true)).
Proof.
  exact (proj1 (updateProgress_composition
                  (App (computeUnlocks initialNodes) (Storage ∅ true))
                  "basics" "basics" 75 50 eq_refl)).
Defined.

Lemma apply_entry_twice arr n : apply_entry arr (apply_entry arr n) = apply_entry arr n.
Proof.
  unfold apply_entry, import_target. destruct (first_entry arr (id n) ≫= _) as [p|] eqn:E.
  - simpl. by rewrite E.
  - by rewrite E.
Qed.

Lemma persist_again arr ns : ∀ m,
  (∀ n p, n ∈ ns → import_target arr n = Some p →
          m !! storage_key (id n) = Some (String_of (clamp p))) →
  foldl (persist_entry arr) m ns = m.
Proof.
  induction ns as [|n ns IH]; intros m Hm; [done|]. cbn [foldl].
  assert (persist_entry arr m n = m) as ->.
  { unfold persist_entry. destruct (import_target arr n) as [p|] eqn:E; [|done].
    apply insert_id, Hm; [apply list_elem_of_here|done]. }
  apply IH. intros n' p Hn'. apply Hm. by apply list_elem_of_further.
Qed.

(** X11: importing the same array twice is the same as importing it once
    (no null entry, writable storage): topic list, storage and outcome of
    the second import are those of the first. *)
Theorem import_idempotent (arr : list json) (a : app) :
  Forall non_null arr → writable (store a) = true →
  reader_onload (inr (JArr arr)) (reader_onload (inr (JArr arr)) a).1
  = reader_onload (inr (JArr arr)) a.
Proof.
  intros Harr Hw. rewrite (reader_onload_applied arr a Harr Hw).
  rewrite reader_onload_applied by done. simpl. f_equal. f_equal.
  - rewrite (computeUnlocks_fmap_computeUnlocks _ _ (apply_entry_erase arr)).
    rewrite <- list_fmap_compose. f_equal. apply list_fmap_ext.
    intros k n _. apply apply_entry_twice.
  - f_equal. apply persist_again. intros n p Hn Htarget.
    rewrite persist_lookup. unfold import_target in Htarget. rewrite Htarget.
    rewrite decide_True; [done|].
    apply (list_elem_of_fmap_2 id) in Hn. rewrite computeUnlocks_ids in Hn.
    apply list_elem_of_fmap in Hn as (y & Hy & Hin).
    apply list_elem_of_fmap in Hin as (z & -> & Hz).
    rewrite Hy, apply_entry_id. by apply list_elem_of_fmap_2.
Qed.

Lemma import_idempotent_witness :
  let arr := [JObj [("id", JStr "basics"); ("progress", JNum 150)]] in
  let a := App (computeUnlocks initialNodes) (Storage ∅ true) in
  reader_onload (inr (JArr arr)) (reader_onload (inr (JArr arr)) a).1
  = reader_onload (inr (JArr arr)) a.
Proof.
  intros arr a. apply import_idempotent; [|done].
  apply Forall_cons. split; [done|apply Forall_nil_2].
Defined.

(** ** Dependency edges *)

Lemma edges_of_cons n ns :
  ReactUi.edges_of (n :: ns) =
    ((λ dep, Edge dep (id n)) <$> prerequisites n) ++ ReactUi.edges_of ns.
Proof.
  unfold ReactUi.edges_of. rewrite bind_cons. f_equal.
  unfold prerequisites. by destruct (dependencies n).
Qed.

(** X12: the edges are exactly the (prerequisite, dependent) pairs of the
    topic list, one edge per entry of a dependency list: an id listed twice
    gives two edges, and the number of edges is the total length of the
    dependency lists.  script.js builds the same list, and throws a
    [TypeError] when some topic has no dependency list, where react_app.js
    skips that topic. *)
Theorem edges_are_prerequisite_pairs (ns : list node) :
  (∀ e, e ∈ ReactUi.edges_of ns ↔
        ∃ n, n ∈ ns ∧ target e = id n ∧ source e ∈ prerequisites n) ∧
  length (ReactUi.edges_of ns) = sum_list_with (λ n, length (prerequisites n)) ns ∧
  ((∀ n, n ∈ ns → is_Some (dependencies n)) →
   ScriptUi.links_of ns = inr (ReactUi.edges_of ns)) ∧
  ((∃ n, n ∈ ns ∧ dependencies n = None) → ScriptUi.links_of ns = inl TypeError).
Proof.
  split; [|split; [|split]].
  - intros [s t]. induction ns as [|n ns IH].
    + split; [by intros ?%elem_of_nil|by intros (n & ?%elem_of_nil & _)].
    + rewrite edges_of_cons, elem_of_app, IH, list_elem_of_fmap. simpl. split.
      * intros [(dep & [= -> ->] & Hdep)|(n' & Hn' & Ht & Hs)].
        -- exists n. split; [apply list_elem_of_here|done].
        -- exists n'. split; [by apply list_elem_of_further|done].
      * intros (n' & Hn' & Ht & Hs). apply elem_of_cons in Hn' as [->|Hn'].
        -- left. exists s. by rewrite Ht.
        -- right. eauto.
  - induction ns as [|n ns IH]; [done|].
    rewrite edges_of_cons, length_app, length_fmap, IH. done.
  - induction ns as [|n ns IH]; intros Hall; [done|].
    rewrite edges_of_cons. simpl.
    destruct (Hall n (list_elem_of_here _ _)) as [deps Hdeps].
    unfold prerequisites. rewrite Hdeps, IH; [done|].
    intros n' Hn'. by apply Hall, list_elem_of_further.
  - induction ns as [|n ns IH]; intros (n' & Hn' & Hnone).
    + by apply elem_of_nil in Hn'.
    + simpl. destruct (dependencies n) as [deps|] eqn:Hdeps; [|done].
      apply elem_of_cons in Hn' as [->|Hn']; [congruence|].
      rewrite IH; [done|eauto].
Qed.

Lemma edges_are_prerequisite_pairs_witness :
  ScriptUi.links_of initialNodes = inr ReactUi.initialEdges.
Proof.
  destruct (edges_are_prerequisite_pairs initialNodes) as (_ & _ & Hsame & _).
  apply Hsame. apply Forall_forall. apply (bool_decide_unpack _). by vm_compute.
Defined.

(** ** The lookup map of script.js *)

Lemma nodeMap_from_app ns : ∀ i m n,
  Script.nodeMap_from i (ns ++ [n]) m
  = <[id n := i + length ns]> (Script.nodeMap_from i ns m).
Proof.
  induction ns as [|x ns IH]; intros i m n; simpl.
  - by rewrite Nat.add_0_r.
  - rewrite IH. f_equal. lia.
Qed.

(** X13: [nodeMap.get(id)] is the last topic of the list that carries the
    id (where [nodes.find] of react_app.js takes the first), and is
    undefined exactly when no topic carries it. *)
Theorem nodeMap_get_is_last (ns : list node) (q : string) :
  (∀ j, Script.build_nodeMap ns !! q = Some j ↔
        ∃ n, ns !! j = Some n ∧ id n = q ∧
             ∀ k n', ns !! k = Some n' → j < k → id n' ≠ q) ∧
  (Script.build_nodeMap ns !! q = None ↔ ∀ n, n ∈ ns → id n ≠ q).
Proof.
  unfold Script.build_nodeMap. induction ns as [|n ns [IHsome IHnone]] using rev_ind.
  - split.
    + intros j. simpl. rewrite lookup_empty. split; [done|]. by intros (n & ? & _).
    + simpl. rewrite lookup_empty. split; [|done]. by intros _ n ?%elem_of_nil.
  - rewrite nodeMap_from_app. simpl. destruct (decide (id n = q)) as [Hq|Hq].
    + split.
      * intros j. rewrite Hq, lookup_insert_eq. split.
        -- intros [= <-]. exists n. split; [by rewrite list_lookup_middle|].
           split; [done|]. intros k n' Hk Hlt. apply lookup_lt_Some in Hk.
           rewrite length_app in Hk. simpl in Hk. lia.
        -- intros (n0 & Hj & _ & Hlast). f_equal.
           destruct (decide (j = length ns)) as [->|Hne]; [done|].
           pose proof (lookup_lt_Some _ _ _ Hj) as Hlt.
           rewrite length_app in Hlt. simpl in Hlt.
           exfalso. apply (Hlast (length ns) n); [by rewrite list_lookup_middle|lia|done].
      * rewrite Hq, lookup_insert_eq. split; [done|]. intros Hall. exfalso.
        apply (Hall n); [|done]. apply elem_of_app. right. apply list_elem_of_here.
    + split.
      * intros j. rewrite lookup_insert_ne by done. rewrite IHsome. split.
        -- intros (n0 & Hj & Hid & Hlast). exists n0.
           split; [by apply lookup_app_l_Some|]. split; [done|].
           intros k n' Hk Hlt. apply lookup_app_Some in Hk as [Hk|[_ Hk]].
           ++ by apply (Hlast k).
           ++ apply list_lookup_singleton_Some in Hk as [_ <-]. done.
        -- intros (n0 & Hj & Hid & Hlast).
           apply lookup_app_Some in Hj as [Hj|[_ Hj]].
           ++ exists n0. split; [done|]. split; [done|].
              intros k n' Hk. apply Hlast. by apply lookup_app_l_Some.
           ++ apply list_lookup_singleton_Some in Hj as [_ <-]. done.
      * rewrite lookup_insert_ne by done. rewrite IHnone. split.
        -- intros Hall n' Hn'. apply elem_of_app in Hn' as [Hn'|Hn'].
           ++ by apply Hall.
           ++ apply list_elem_of_singleton in Hn' as ->. done.
        -- intros Hall n' Hn'. apply Hall, elem_of_app. by left.
Qed.

(** ** The in-place loop of script.js, in any order *)

Lemma unlock_at_Some nm h i x :
  h !! i = Some x →
  Script.unlock_at nm h i
  = <[i := set_unlocked x (forallb (Script.dep_ok h nm) (prerequisites x))]> h.
Proof.
  intros Hi. unfold Script.unlock_at, prerequisites. rewrite Hi.
  by destruct (dependencies x) as [[|q ds]|].
Qed.

Lemma script_dep_ok_progress nm (h g : list node) q :
  (∀ j, progress <$> (h !! j) = progress <$> (g !! j)) →
  Script.dep_ok h nm q = Script.dep_ok g nm q.
Proof.
  intros Hpr. unfold Script.dep_ok, Script.get_node.
  destruct (nm !! q) as [j|]; simpl; [|done]. specialize (Hpr j).
  destruct (h !! j) as [x|], (g !! j) as [y|]; simpl in *;
    [injection Hpr as ->; done | discriminate.. | done].
Qed.

(** After the iterations [visits], in whatever order and however often, the
    visited objects carry the flag computed from the progress values at the
    start, and the others are as they were. *)
Lemma foldl_unlock_at_lookup nm g (visits : list nat) : ∀ j,
  foldl (Script.unlock_at nm) g visits !! j
  = if bool_decide (j ∈ visits) then flag_of nm g <$> (g !! j) else g !! j.
Proof.
  induction visits as [|i visits IH] using rev_ind; intros j.
  - cbn [foldl]. case_bool_decide as Hj; [by apply elem_of_nil in Hj|done].
  - rewrite foldl_app. simpl. set (h := foldl (Script.unlock_at nm) g visits) in *.
    assert (∀ k, progress <$> (h !! k) = progress <$> (g !! k)) as Hpr.
    { intros k. rewrite IH. case_bool_decide; [|done]. by destruct (g !! k). }
    assert (bool_decide (j ∈ visits ++ [i])
            = bool_decide (j ∈ visits) || bool_decide (j = i))
      as ->.
    { rewrite <- bool_decide_or. apply bool_decide_ext.
      by rewrite elem_of_app, list_elem_of_singleton. }
    destruct (g !! i) as [n|] eqn:Hgi.
    + assert (∃ x, h !! i = Some x ∧ set_unlocked x = set_unlocked n ∧
                   prerequisites x = prerequisites n) as (x & Hx & Hset & Hpre).
      { rewrite IH, Hgi. case_bool_decide; simpl; eauto. }
      rewrite (unlock_at_Some nm h i x Hx), Hset, Hpre.
      rewrite (every_ext _ (Script.dep_ok g nm));
        [|intros q; by apply script_dep_ok_progress].
      destruct (decide (j = i)) as [->|Hne].
      * rewrite list_lookup_insert_eq by (by eapply lookup_lt_Some).
        rewrite (bool_decide_eq_true_2 (i = i)) by done.
        rewrite orb_true_r, Hgi. done.
      * rewrite list_lookup_insert_ne by done.
        rewrite (bool_decide_eq_false_2 (j = i)) by done.
        by rewrite orb_false_r, IH.
    + assert (h !! i = None) as Hx.
      { rewrite IH, Hgi. by case_bool_decide. }
      unfold Script.unlock_at. rewrite Hx, IH.
      destruct (decide (j = i)) as [->|Hne].
      * rewrite Hgi. by destruct (bool_decide _), (bool_decide _).
      * rewrite (bool_decide_eq_false_2 (j = i)) by done. by rewrite orb_false_r.
Qed.

(** X14: the flags assigned by the loop of script.js do not depend on the
    order of the iterations: visiting the topics in any order, and any
    number of times, gives what [computeUnlocks] gives, as long as every
    topic is visited.  The loop changes nothing but the flags, and running
    it again changes nothing. *)
Theorem script_flags_order_independent (nm : gmap string nat) (g : list node)
    (visits : list nat) :
  (∀ i, i < length g → i ∈ visits) →
  foldl (Script.unlock_at nm) g visits = Script.computeUnlocks nm g ∧
  erase_flag <$> Script.computeUnlocks nm g = erase_flag <$> g ∧
  Script.computeUnlocks nm (Script.computeUnlocks nm g) = Script.computeUnlocks nm g.
Proof.
  intros Hall. rewrite !script_computeUnlocks_map. split; [|split].
  - apply list_eq. intros j. rewrite foldl_unlock_at_lookup, list_lookup_fmap.
    case_bool_decide as Hj; [done|].
    destruct (g !! j) as [n|] eqn:E; [|done].
    exfalso. apply Hj, Hall. by eapply lookup_lt_Some.
  - rewrite <- list_fmap_compose. by apply list_fmap_ext.
  - rewrite <- list_fmap_compose. apply list_fmap_ext. intros k n _. simpl.
    unfold flag_of. simpl. unfold set_unlocked. simpl. do 2 f_equal.
    apply every_ext. intros q. apply script_dep_ok_progress.
    intros j. rewrite list_lookup_fmap. by destruct (g !! j).
Qed.

Lemma script_flags_order_independent_witness :
  foldl (Script.unlock_at (Script.build_nodeMap initialNodes)) initialNodes [4; 2; 0; 3; 1; 2]
  = Script.computeUnlocks (Script.build_nodeMap initialNodes) initialNodes.
Proof.
  refine (proj1 (script_flags_order_independent
                   (Script.build_nodeMap initialNodes) initialNodes [4; 2; 0; 3; 1; 2] _)).
  intros i Hi. simpl in Hi.
  do 5 (destruct i as [|i]; [set_solver|]). lia.
Defined.

(** ** progressColor *)

Lemma segment_cases progress :
  (0 ≤ progress ≤ 100)%Z →
  ((progress ≤ 25)%Z ∧
     segment progress = (Stop 0 [10; 26; 47]%Z, Stop 25 [32; 55; 93]%Z)) ∨
  ((25 < progress ≤ 50)%Z ∧
     segment progress = (Stop 25 [32; 55; 93]%Z, Stop 50 [62; 88; 145]%Z)) ∨
  ((50 < progress ≤ 75)%Z ∧
     segment progress = (Stop 50 [62; 88; 145]%Z, Stop 75 [97; 122; 180]%Z)) ∨
  ((75 < progress)%Z ∧
     segment progress = (Stop 75 [97; 122; 180]%Z, Stop 100 [255; 215; 0]%Z)).
Proof.
  intros Hp. unfold segment, stops, find_segment. simpl.
  repeat (case_bool_decide; simpl); try lia; eauto 10 with lia.
Qed.

Lemma segment_outside progress :
  (progress < 0 ∨ 100 < progress)%Z →
  segment progress = (Stop 0 [10; 26; 47]%Z, Stop 100 [255; 215; 0]%Z).
Proof.
  intros Hp. unfold segment, stops, find_segment. simpl.
  repeat (case_bool_decide; simpl); try lia; done.
Qed.

(** X15: for a progress in [0, 100], [progressColor] picks the two
    neighbouring stops that enclose it and returns a valid colour: red lies
    in [10, 255], green in [26, 215] and blue in [0, 180], and the result is
    the string "rgb(r, g, b)" of the three channels.  At a stop the colour
    is the colour of that stop. *)
Theorem progressColor_in_range (progress : Z) :
  (0 ≤ progress ≤ 100)%Z →
  (∃ r g b, interp progress = [r; g; b] ∧
     (10 ≤ r ≤ 255)%Z ∧ (26 ≤ g ≤ 215)%Z ∧ (0 ≤ b ≤ 180)%Z ∧
     progressColor progress
     = "rgb(" +:+ String_of r +:+ ", " +:+ String_of g +:+ ", " +:+ String_of b +:+ ")") ∧
  (p (segment progress).1 ≤ progress ≤ p (segment progress).2)%Z ∧
  (∀ st, st ∈ stops → progress = p st → interp progress = color st).
Proof.
  intros Hp. split; [|split].
  - unfold progressColor, interp.
    destruct (segment_cases progress Hp) as [[H ->]|[[H ->]|[[H ->]|[H ->]]]];
      simpl; unfold interpolate, round_div; simpl; eexists _, _, _;
      (split; [reflexivity|]);
      (repeat split; try done);
      try (apply Z.div_le_lower_bound; lia);
      try (apply Z.lt_succ_r, Z.div_lt_upper_bound; lia).
  - destruct (segment_cases progress Hp) as [[H ->]|[[H ->]|[[H ->]|[H ->]]]];
      simpl; lia.
  - intros st Hst ->. unfold stops in Hst.
    repeat (apply elem_of_cons in Hst as [->|Hst]; [by vm_compute|]).
    by apply elem_of_nil in Hst.
Qed.

Lemma progressColor_in_range_witness :
  progressColor 60 = "rgb(76, 102, 159)" ∧ interp 75 = [97; 122; 180]%Z.
Proof.
  assert (0 ≤ 60 ≤ 100)%Z as H60 by lia. assert (0 ≤ 75 ≤ 100)%Z as H75 by lia.
  destruct (progressColor_in_range 60 H60) as ((r & g & b & Hi & _ & _ & _ & Hc) & _).
  destruct (progressColor_in_range 75 H75) as (_ & _ & Hstop).
  split.
  - rewrite Hc. vm_compute in Hi. by injection Hi as <- <- <-.
  - apply (Hstop (Stop 75 [97; 122; 180]%Z)); [|done]. unfold stops.
    do 3 apply list_elem_of_further. apply list_elem_of_here.
Defined.

(** X16: a progress outside [0, 100] is enclosed by no pair of stops, so
    the interpolation runs along the line from the first to the last stop
    and leaves the colours of the table: above 100 the red channel exceeds
    255 and the green channel 215, below 0 red is below 10 and green below
    26. *)
Theorem progressColor_out_of_range (progress : Z) :
  (progress < 0 ∨ 100 < progress)%Z →
  segment progress = (Stop 0 [10; 26; 47]%Z, Stop 100 [255; 215; 0]%Z) ∧
  ∃ r g b, interp progress = [r; g; b] ∧
    ((100 < progress)%Z → (255 < r)%Z ∧ (215 < g)%Z ∧ (b ≤ 0)%Z) ∧
    ((progress < 0)%Z → (r < 10)%Z ∧ (g < 26)%Z ∧ (47 ≤ b)%Z).
Proof.
  intros Hp. split; [by apply segment_outside|].
  unfold interp. rewrite segment_outside by done. simpl.
  unfold interpolate, round_div. simpl. eexists _, _, _. split; [reflexivity|].
  split; intros H; repeat split;
    try (apply Z.div_lt_upper_bound; lia);
    try (apply Z.le_succ_l, Z.div_le_lower_bound; lia);
    try (apply Z.lt_succ_r, Z.div_lt_upper_bound; lia);
    try (apply Z.div_le_lower_bound; lia).
Qed.

Lemma progressColor_out_of_range_witness :
  progressColor 150 = "rgb(378, 310, -23)".
Proof.
  assert (150 < 0 ∨ 100 < 150)%Z as H by lia.
  destruct (progressColor_out_of_range 150 H) as [Hseg _].
  unfold progressColor, interp. rewrite Hseg. reflexivity.
Defined.

(** ** Filters *)

(** X17: both implementations hide the same topics.  A topic is hidden
    exactly when its progress is at least 100 (values above 100 included)
    and "Show completed" is off, or its progress is below 100 and "Show
    active" is off; so nothing is hidden with both toggles on, and toggling
    a filter changes neither the topics nor the storage.  (This is about
    a numeric progress.  For [NaN], which this embedding does not have,
    both comparisons of the code are false and the topic is never
    hidden.) *)
Theorem hidden_by_class (u : ReactUi.ui) (d : node) :
  ReactUi.hidden u d = ScriptUi.hidden (ReactUi.showActive u) (ReactUi.showCompleted u) d ∧
  (ReactUi.hidden u d = true ↔
     ((100 ≤ progress d)%Z ∧ ReactUi.showCompleted u = false) ∨
     ((progress d < 100)%Z ∧ ReactUi.showActive u = false)) ∧
  (ReactUi.showActive u = true → ReactUi.showCompleted u = true →
   ReactUi.hidden u d = false) ∧
  ReactUi.model (ReactUi.run u [ReactUi.ToggleActive; ReactUi.ToggleCompleted;
                                ReactUi.ToggleDependencies]) = ReactUi.model u.
Proof.
  split; [|split; [|split]].
  - unfold ReactUi.hidden, ScriptUi.hidden.
    by destruct (ReactUi.showActive u), (ReactUi.showCompleted u),
      (bool_decide (100 ≤ progress d)%Z), (bool_decide (progress d < 100)%Z).
  - unfold ReactUi.hidden.
    destruct (ReactUi.showActive u), (ReactUi.showCompleted u); simpl;
      repeat case_bool_decide; simpl; split; try done; try lia;
      try (by intros [[_ ?]|[_ ?]]);
      intros _; first [left; split; [lia|done] | right; split; [lia|done]].
  - unfold ReactUi.hidden. by intros -> ->.
  - by destruct u as [a sel sa sc sd [e|]].
Qed.

(** ** A null entry in the imported array *)

Lemma array_find_found {A} (t : A → exn + bool) (l : list A) x :
  array_find t l = inr (Some x) → t x = inr true.
Proof.
  induction l as [|y l IH]; [done|]. simpl.
  destruct (t y) as [e|[|]] eqn:E; [done| |done]. by intros [= <-].
Qed.

Lemma find_entry_found arr n entry :
  find_entry arr n = inr (Some entry) → entry ≠ JNull.
Proof. intros H%array_find_found. by intros ->. Qed.

Lemma json_null_cases (x : json) : x = JNull ∨ x ≠ JNull.
Proof. destruct x; (by left) || (by right). Qed.

(** The search of a topic's entry throws exactly when it meets a null
    entry before any entry with the topic's id. *)
Lemma find_entry_throws arr n : ∀ e,
  find_entry arr n = inl e ↔
  e = TypeError ∧
  ∃ j, arr !! j = Some JNull ∧
       ∀ k x, arr !! k = Some x → k < j → entry_id x ≠ Some (id n).
Proof.
  unfold find_entry. induction arr as [|x arr IH]; intros e.
  - simpl. split; [done|]. by intros (_ & j & ? & _).
  - simpl. destruct (json_null_cases x) as [->|Hx].
    + simpl. split.
      * intros [= <-]. split; [done|]. exists 0. split; [done|]. intros k y _ Hk. lia.
      * by intros [-> _].
    + rewrite (id_test_non_null x n Hx). case_bool_decide as Hid.
      * split; [done|]. intros (_ & [|j] & Hj & Hmin); exfalso.
        -- simpl in Hj. by injection Hj.
        -- by apply (Hmin 0 x eq_refl); [lia|].
      * rewrite IH. split.
        -- intros (-> & j & Hj & Hmin). split; [done|]. exists (S j). split; [done|].
           intros [|k] y Hk Hlt; simplify_eq/=; [done|]. apply (Hmin k y Hk). lia.
        -- intros (-> & [|j] & Hj & Hmin).
           ++ exfalso. simpl in Hj. by injection Hj.
           ++ split; [done|]. exists j. split; [done|].
              intros k y Hk Hlt. apply (Hmin (S k) y Hk). lia.
Qed.

Lemma import_one_writable arr n s :
  writable (import_one arr n s).1 = writable s.
Proof.
  unfold import_one, mbind, M_bind, bind, lift, mret, M_ret, ret.
  destruct (find_entry arr n) as [e|[entry|]]; simpl; [done| |done].
  destruct (get_prop entry "progress") as [e|mp]; simpl; [done|].
  destruct (as_number mp) as [p|]; simpl; [|done].
  unfold setItem. by destruct (writable s) eqn:Hw.
Qed.

Lemma import_one_throws arr n s e :
  writable s = true →
  (import_one arr n s).2 = inl e ↔ find_entry arr n = inl e.
Proof.
  intros Hw. unfold import_one, mbind, M_bind, bind, lift, mret, M_ret, ret.
  destruct (find_entry arr n) as [e'|[entry|]] eqn:E; simpl.
  - split; by intros [= ->].
  - apply find_entry_found in E. destruct entry; try done; simpl;
      (destruct (as_number _) as [p|]; simpl; [by rewrite setItem_writable|done]).
  - done.
Qed.

Lemma mapM_import_throws arr ns : ∀ s e,
  writable s = true →
  (mapM (import_one arr) ns s).2 = inl e ↔ ∃ n, n ∈ ns ∧ find_entry arr n = inl e.
Proof.
  induction ns as [|n ns IH]; intros s e Hw.
  - simpl. split; [done|]. by intros (n & ?%elem_of_nil & _).
  - rewrite mapM_cons_run.
    pose proof (import_one_throws arr n s e Hw) as Hone.
    pose proof (import_one_writable arr n s) as Hw1. rewrite Hw in Hw1.
    destruct (import_one arr n s) as [s1 [e1|n1]] eqn:E1; simpl in *.
    + split.
      * intros [= ->]. exists n. split; [apply list_elem_of_here|by apply Hone].
      * intros (n' & Hn' & Hf). apply elem_of_cons in Hn' as [->|Hn'].
        -- apply Hone in Hf. by injection Hf as ->.
        -- pose proof (import_one_throws arr n s e1 Hw) as Hone1. rewrite E1 in Hone1.
           simpl in Hone1. destruct (proj1 (find_entry_throws arr n e1)) as [-> _];
             [by apply Hone1|].
           destruct (proj1 (find_entry_throws arr n' e) Hf) as [-> _]. done.
    + specialize (IH s1 e Hw1).
      destruct (mapM (import_one arr) ns s1) as [s2 [e2|ns2]] eqn:E2; simpl in *.
      * rewrite IH. split.
        -- intros (n' & Hn' & Hf). exists n'. split; [by apply list_elem_of_further|done].
        -- intros (n' & Hn' & Hf). apply elem_of_cons in Hn' as [->|Hn']; [|eauto].
           by apply Hone in Hf.
      * split; [done|]. intros (n' & Hn' & Hf). exfalso.
        apply elem_of_cons in Hn' as [->|Hn']; [by apply Hone in Hf|].
        assert (inr ns2 = inl e) as Habs by (apply IH; eauto). done.
Qed.

(** X18: with a storage that accepts writes, the import of an array ends in
    the error branch exactly when, for some topic, a null entry comes
    before every entry with the topic's id; the error is then a
    [TypeError], thrown by the updater, and React unmounts the component
    tree.  In every other case the import is applied and the tree stays
    mounted: a null entry that every topic's search stops short of does no
    harm. *)
Theorem import_type_error_iff (arr : list json) (u : ReactUi.ui) :
  ReactUi.crashed u = None → writable (store (ReactUi.model u)) = true →
  let a := ReactUi.model u in
  let u' := ReactUi.step u (ReactUi.FileLoaded (inr (JArr arr))) in
  ((reader_onload (inr (JArr arr)) a).2 = Caught TypeError ↔
   ∃ n j, n ∈ nodes a ∧ arr !! j = Some JNull ∧
          ∀ k x, arr !! k = Some x → k < j → ¬ has_id x (id n)) ∧
  ((reader_onload (inr (JArr arr)) a).2 = Caught TypeError ∨
   (reader_onload (inr (JArr arr)) a).2 = Applied) ∧
  ((reader_onload (inr (JArr arr)) a).2 = Caught TypeError →
   ReactUi.crashed u' = Some TypeError) ∧
  ((reader_onload (inr (JArr arr)) a).2 = Applied →
   ReactUi.crashed u' = None ∧
   ReactUi.model u' = (reader_onload (inr (JArr arr)) a).1).
Proof.
  intros Hc Hw a u'. unfold u', ReactUi.step. rewrite Hc. simpl.
  unfold ReactUi.file_loaded. fold a.
  pose proof (mapM_import_throws arr (nodes a) (store a)) as Hthrows.
  unfold reader_onload, setNodes, import_updater, mbind, M_bind, bind. simpl.
  destruct (mapM (import_one arr) (nodes a) (store a)) as [s1 [e1|ns1]] eqn:E;
    simpl in *.
  - destruct (proj1 (Hthrows e1 Hw) eq_refl) as (n & Hn & Hf).
    apply find_entry_throws in Hf as (-> & j & Hj & Hmin).
    split; [|split; [by left|split; [done|done]]]. split; [|done].
    intros _. exists n, j. split; [done|]. split; [done|].
    intros k x Hk Hlt Hx. by apply (Hmin k x Hk Hlt), has_id_entry_id.
  - split; [|split; [by right|split; [done|by rewrite Hc]]]. split; [done|].
    intros (n & j & Hn & Hj & Hmin). exfalso.
    assert (find_entry arr n = inl TypeError) as Hf.
    { apply find_entry_throws. split; [done|]. exists j. split; [done|].
      intros k x Hk Hlt Hx. by apply (Hmin k x Hk Hlt), has_id_entry_id. }
    assert (inr ns1 = inl TypeError) as Habs by (apply (Hthrows TypeError Hw); eauto).
    done.
Qed.

Lemma import_type_error_iff_witness :
  let u := ReactUi.Ui (App (computeUnlocks initialNodes) (Storage ∅ true))
             None true true true None in
  ReactUi.crashed
    (ReactUi.step u (ReactUi.FileLoaded
       (inr (JArr [JObj [("id", JStr "basics"); ("progress", JNum 100)]; JNull]))))
  = Some TypeError.
Proof.
  intros u.
  destruct (import_type_error_iff
    [JObj [("id", JStr "basics"); ("progress", JNum 100)]; JNull] u eq_refl eq_refl)
    as (Hiff & _ & Hcrash & _).
  apply Hcrash, Hiff.
  eexists _, 1. split; [apply list_elem_of_further, list_elem_of_here|].
  split; [reflexivity|]. intros [|k] x Hk Hlt; [|lia].
  injection Hk as <-. intros (fields & [= <-] & Hid). discriminate Hid.
Defined.

(** ** Running an updater again *)

Lemma import_one_plan arr n s :
  import_one arr n s =
    match plan arr n with
    | inl e => (s, inl e)
    | inr None => (s, inr n)
    | inr (Some p) =>
        (setItem (storage_key (id n)) (String_of (clamp p));;
         mret (set_progress n (clamp p))) s
    end.
Proof.
  unfold import_one, plan, mbind, M_bind, bind, lift.
  destruct (find_entry arr n) as [e|[entry|]]; simpl; try done.
  destruct (get_prop entry "progress") as [e|mp]; simpl; [done|].
  by destruct (as_number mp).
Qed.

Lemma plan_id arr n m : id n = id m → plan arr n = plan arr m.
Proof. intros H. unfold plan, find_entry. by rewrite H. Qed.

Lemma storage_eta (t : storage) : Storage (items t) (writable t) = t.
Proof. by destruct t. Qed.

(** A second run of the callback for the same topic writes nothing new. *)
Lemma import_one_again arr n s :
  (import_one arr n (import_one arr n s).1).1 = (import_one arr n s).1.
Proof.
  rewrite !import_one_plan. destruct (plan arr n) as [e|[p|]]; [done| |done].
  unfold mbind, M_bind, bind, setItem. destruct (writable s) eqn:Hw; simpl.
  - by rewrite insert_insert_eq.
  - by rewrite Hw.
Qed.

(** A storage that a topic's callback leaves alone is still left alone by
    it after the callback of another topic has run. *)
Lemma import_one_settled arr n m t :
  (import_one arr n t).1 = t →
  (import_one arr n (import_one arr m t).1).1 = (import_one arr m t).1.
Proof.
  rewrite !import_one_plan. intros Hn.
  destruct (plan arr m) as [e|[q|]] eqn:Em; [done| |done].
  destruct (plan arr n) as [e|[p|]] eqn:En; [done| |done].
  revert Hn. unfold mbind, M_bind, bind, setItem.
  destruct (writable t) eqn:Hw; simpl; [|by rewrite Hw].
  intros Hn. apply (f_equal items) in Hn. simpl in Hn. f_equal.
  destruct (decide (id n = id m)) as [Hid|Hid].
  - rewrite (plan_id arr n m Hid), Em in En. injection En as ->.
    by rewrite Hid, insert_insert_eq.
  - rewrite insert_insert_ne by (intros Hk; by apply react_key_inj in Hk).
    by rewrite Hn.
Qed.

(** What the callback returns or throws depends on the storage only
    through its accepting writes. *)
Lemma import_one_outcome arr n s t :
  writable t = writable s → (import_one arr n t).2 = (import_one arr n s).2.
Proof.
  intros Hw. rewrite !import_one_plan. destruct (plan arr n) as [e|[p|]]; [done| |done].
  unfold mbind, M_bind, bind, setItem. rewrite Hw. by destruct (writable s).
Qed.

Lemma mapM_import_writable arr ns : ∀ s,
  writable (mapM (import_one arr) ns s).1 = writable s.
Proof.
  induction ns as [|n ns IH]; intros s; [done|]. rewrite mapM_cons_run.
  pose proof (import_one_writable arr n s) as Hn.
  destruct (import_one arr n s) as [s1 [e|y]]; [done|]. specialize (IH s1).
  destruct (mapM (import_one arr) ns s1) as [s2 [e|ys]]; simpl in *; congruence.
Qed.

Lemma mapM_import_settled arr n ns : ∀ t,
  (import_one arr n t).1 = t →
  (import_one arr n (mapM (import_one arr) ns t).1).1 = (mapM (import_one arr) ns t).1.
Proof.
  induction ns as [|m ns IH]; intros t Ht; [done|]. rewrite mapM_cons_run.
  pose proof (import_one_settled arr n m t Ht) as Hm.
  destruct (import_one arr m t) as [t1 [e|y]]; [done|]. specialize (IH t1 Hm).
  by destruct (mapM (import_one arr) ns t1) as [t2 [e|ys]].
Qed.

Lemma mapM_import_again arr ns : ∀ s,
  mapM (import_one arr) ns (mapM (import_one arr) ns s).1 = mapM (import_one arr) ns s.
Proof.
  induction ns as [|n ns IH]; intros s; [done|]. rewrite (mapM_cons_run _ n ns s).
  pose proof (import_one_again arr n s) as Hagain.
  pose proof (import_one_writable arr n s) as Hw.
  destruct (import_one arr n s) as [s1 [e|y]] eqn:E1; cbn [fst snd] in *.
  - rewrite mapM_cons_run.
    pose proof (import_one_outcome arr n s s1 Hw) as Hout. rewrite E1 in Hout.
    destruct (import_one arr n s1) as [s1' [e'|y']]; cbn [fst snd] in *; congruence.
  - pose proof (mapM_import_settled arr n ns s1 Hagain) as Hsettled.
    pose proof (mapM_import_writable arr ns s1) as Hw2.
    specialize (IH s1).
    destruct (mapM (import_one arr) ns s1) as [s2 r2] eqn:E2. cbn [fst snd] in *.
    assert (import_one arr n s2 = (s2, inr y)) as Hn.
    { pose proof (import_one_outcome arr n s s2) as Hout. rewrite E1 in Hout.
      destruct (import_one arr n s2) as [s2' r]. cbn [fst snd] in *. subst s2'.
      rewrite Hout; [done|congruence]. }
    destruct r2 as [e|ys]; cbn [fst snd]; rewrite mapM_cons_run, Hn, IH; done.
Qed.

(** X3: React can call an updater more than once for one [setNodes] (a
    first call that throws is repeated when React renders), each time with
    the same list.  Both updaters stand this: run again from the same list
    on the storage the first run left, an updater leaves that storage as
    it is and returns the same list or throws the same error.  This holds
    whatever the array holds and whether or not the storage accepts
    writes. *)
Theorem updaters_run_again (prev : list node) (s : storage) :
  (∀ i v, update_updater i v prev (update_updater i v prev s).1
          = update_updater i v prev s) ∧
  (∀ arr, import_updater arr prev (import_updater arr prev s).1
          = import_updater arr prev s).
Proof.
  split.
  - intros i v. unfold update_updater, mbind, M_bind, bind, setItem.
    destruct (writable s) eqn:Hw; simpl; [|by rewrite Hw].
    by rewrite insert_insert_eq.
  - intros arr. unfold import_updater, mbind, M_bind, bind.
    pose proof (mapM_import_again arr prev s) as H.
    destruct (mapM (import_one arr) prev s) as [s1 [e|ns1]]; simpl in *; by rewrite H.
Qed.

(** ** script.js: a change survives a reload *)

Lemma script_load_one_shape s x y :
  ScriptUi.load_one s x = Some y → y = set_progress x (progress y).
Proof.
  unfold ScriptUi.load_one. destruct (items s !! _) as [stored|].
  - destruct (parseInt10 stored) as [z|]; simpl; [|done]. by intros [= <-].
  - intros [= <-]. by destruct x.
Qed.

Lemma script_computeUnlocks_erase nm g1 g2 :
  erase_flag <$> g1 = erase_flag <$> g2 →
  Script.computeUnlocks nm g1 = Script.computeUnlocks nm g2.
Proof.
  intros H. rewrite !script_computeUnlocks_map.
  assert (∀ g, flag_of nm g <$> g
               = (λ n, set_unlocked n (forallb (Script.dep_ok (erase_flag <$> g) nm)
                                         (prerequisites n))) <$> (erase_flag <$> g)) as Hg.
  { intros g. rewrite <- list_fmap_compose. apply list_fmap_ext. intros k n _. simpl.
    unfold flag_of, set_unlocked. simpl. do 2 f_equal. apply every_ext. intros q.
    apply script_dep_ok_progress. intros j. rewrite list_lookup_fmap.
    by destruct (g !! j). }
  by rewrite (Hg g1), (Hg g2), H.
Qed.

(** X19: script.js on a topic list with unique ids: if the page shows what
    a reload would show, then after a drop-down change to a safe integer
    (where [String] and [parseInt] are exact) whose write succeeds it still
    does: reloading gives the page's topic list, flags included. *)
Theorem script_change_survives_reload (init : list node) (pg : Script.page)
    (ref : nat) (v : Z) (n : node) :
  unique_ids init → safe_integer v →
  ScriptUi.DOMContentLoaded
    (Script.Page init (Script.build_nodeMap init) (Script.local pg)) = Some pg →
  writable (Script.local pg) = true →
  Script.graph pg !! ref = Some n →
  ScriptUi.DOMContentLoaded
    (Script.Page init (Script.build_nodeMap init)
       (Script.local (Script.select_onchange ref v pg).1))
  = Some (Script.select_onchange ref v pg).1.
Proof.
  intros Hnd Hv Hload Hw Hn. rewrite (select_onchange_run ref v pg n Hw Hn). simpl.
  unfold ScriptUi.DOMContentLoaded in *. simpl in Hload.
  destruct (ScriptUi.loadProgress init (Script.local pg)) as [raw|] eqn:Hraw;
    [|done]. simpl in Hload. injection Hload as Hpg.
  assert (Script.graph pg = Script.computeUnlocks (Script.build_nodeMap init) raw) as Hg
    by (by rewrite <- Hpg).
  assert (Script.nodeMap pg = Script.build_nodeMap init) as Hnm by (by rewrite <- Hpg).
  rewrite Hg in Hn |- *. rewrite Hnm. clear Hpg Hg Hnm. simpl.
  unfold ScriptUi.loadProgress in *. apply list.mapM_Some in Hraw.
  rewrite script_computeUnlocks_map, list_lookup_fmap in Hn.
  destruct (raw !! ref) as [r|] eqn:Hr; [|done]. injection Hn as <-.
  destruct (Forall2_lookup_r _ _ _ _ _ Hraw Hr) as (x & Hx & Hxr).
  pose proof (script_load_one_shape _ _ _ Hxr) as Hshape.
  assert (id r = id x) as Hid by (by rewrite Hshape).
  assert (list.mapM (ScriptUi.load_one
            (Storage (<[Script.storage_key (id (flag_of (Script.build_nodeMap init) raw r))
                        := String_of v]> (items (Script.local pg))) true)) init
          = Some (<[ref := set_progress r v]> raw)) as ->.
  { apply list.mapM_Some, Forall2_same_length_lookup. split.
    - rewrite length_insert. by eapply Forall2_length.
    - intros i x' y' Hx' Hy'. unfold ScriptUi.load_one. simpl.
      destruct (decide (i = ref)) as [->|Hne].
      + rewrite list_lookup_insert_eq in Hy' by (by eapply lookup_lt_Some).
        simplify_eq. rewrite Hid, lookup_insert_eq, parseInt10_String_of. simpl.
        by rewrite Hshape.
      + rewrite list_lookup_insert_ne in Hy' by done.
        rewrite lookup_insert_ne.
        * by apply (Forall2_lookup_lr _ _ _ i x' y' Hraw).
        * intros Hk. apply script_key_inj in Hk. apply Hne. symmetry.
          eapply NoDup_lookup; [exact Hnd| |]; rewrite list_lookup_fmap.
          -- by rewrite Hx.
          -- rewrite Hx'. simpl. by rewrite <- Hk, Hid. }
  simpl. do 2 f_equal. apply script_computeUnlocks_erase.
  rewrite script_computeUnlocks_map, !list_fmap_insert, <- list_fmap_compose.
  done.
Qed.

Lemma script_change_survives_reload_witness :
  let pg0 := Script.Page (Script.computeUnlocks (Script.build_nodeMap initialNodes) initialNodes)
               (Script.build_nodeMap initialNodes) (Storage ∅ true) in
  ScriptUi.DOMContentLoaded
    (Script.Page initialNodes (Script.build_nodeMap initialNodes)
       (Script.local (Script.select_onchange 0 75 pg0).1))
  = Some (Script.select_onchange 0 75 pg0).1.
Proof.
  intros pg0.
  refine (script_change_survives_reload initialNodes pg0 0 75 _
            initialNodes_unique_ids _ _ eq_refl eq_refl).
  - unfold safe_integer. lia.
  - reflexivity.
Defined.

(** ** Raising progress *)

Lemma dep_ok_raised ns i v q :
  (∀ n, n ∈ ns → id n = i → (progress n ≤ v)%Z) →
  dep_ok ns q = true → dep_ok (update_one i v <$> ns) q = true.
Proof.
  intros Hle. unfold dep_ok. rewrite find_node_fmap by apply update_one_id.
  destruct (find_node ns q) as [d|] eqn:E; simpl; [|done].
  apply find_node_Some in E as (j & Hj & _ & _).
  rewrite !bool_decide_eq_true. intros H75. unfold update_one.
  case_bool_decide as Hid; [|done]. simpl.
  specialize (Hle d (list_elem_of_lookup_2 _ _ _ Hj) Hid). lia.
Qed.

(** X20: raising a topic's progress never locks a topic: when the new
    value is at least the progress of the topic with that id, every topic
    that was unlocked before [updateProgress] is unlocked after it, whether
    or not the write succeeds. *)
Theorem raising_progress_never_locks (ns : list node) (s : storage) (i : string)
    (v : Z) (k : nat) (n : node) :
  (∀ m, m ∈ ns → id m = i → (progress m ≤ v)%Z) →
  computeUnlocks ns !! k = Some n → unlocked n = Some true →
  ∃ n', nodes (updateProgress i v (App (computeUnlocks ns) s)).1 !! k = Some n' ∧
        unlocked n' = Some true.
Proof.
  intros Hle Hk Hn.
  destruct (updateProgress_nodes i v (App (computeUnlocks ns) s)) as [-> | ->];
    [by exists n|]. simpl.
  unfold computeUnlocks in Hk. rewrite list_lookup_fmap in Hk.
  destruct (ns !! k) as [m|] eqn:Hm; [|done]. simpl in Hk. injection Hk as <-.
  rewrite unlock_one_every in Hn. simpl in Hn. injection Hn as Hall.
  eexists. split.
  - apply computeUnlocks_lookup. rewrite list_lookup_fmap.
    by rewrite (computeUnlocks_lookup _ _ _ Hm).
  - simpl. f_equal. rewrite update_one_prerequisites. simpl.
    apply forallb_forall. intros q Hq. rewrite forallb_forall in Hall.
    apply dep_ok_raised.
    + intros d Hd Hid. unfold computeUnlocks in Hd.
      apply list_elem_of_fmap in Hd as (d0 & -> & Hd0).
      rewrite unlock_one_every in Hid |- *. simpl in *. by apply Hle.
    + rewrite dep_ok_computeUnlocks. by apply Hall.
Qed.

Lemma raising_progress_never_locks_witness :
  ∃ n', nodes (updateProgress "algorithms" 75
                 (App (computeUnlocks (update_one "basics" 75 <$> initialNodes))
                      (Storage ∅ true))).1 !! 1%nat = Some n' ∧
        unlocked n' = Some true.
Proof.
  refine (raising_progress_never_locks (update_one "basics" 75 <$> initialNodes)
            (Storage ∅ true) "algorithms" 75 1
            (set_unlocked (Node "datastructures" "Data Structures"
               "Study arrays, lists, stacks, queues, trees and more.  Knowing how data is organised is essential."
               (Some ["basics"]) 0 None) true) _ eq_refl eq_refl).
  apply (proj1 (Forall_forall (λ m, id m = "algorithms" → (progress m ≤ 75)%Z) _)).
  apply (bool_decide_unpack _). by vm_compute.
Defined.
